(** * influxdb_exporter: line-protocol points to exposition-format samples

    A shallow embedding of [main.go]: the identifier sanitizer
    [ReplaceInvalidChars], the field coercion, the label-set and sample-ID
    construction of [parsePointsToSample], and the error handling around the
    metric encoder.

    Go strings are byte sequences; they are modelled as [string], whose
    characters ([ascii]) are exactly the 256 byte values.  A run-time panic
    (index or slice out of range) is modelled as [None] in the option monad. *)

From Stdlib Require Import ZArith Ascii String Lia Floats.SpecFloat.
From stdpp Require Import base option list sorting strings gmap fin_maps.

Local Open Scope string_scope.
Local Open Scope nat_scope.
Local Open Scope list_scope.

(** ** Go strings: bytes, indexing and slicing *)

Definition byteVal (c : ascii) : Z := Z.of_N (N_of_ascii c).

(** [len(s)] *)
Definition len (s : string) : nat := String.length s.

Fixpoint str_take (n : nat) (s : string) : string :=
  match n, s with
  | S n', String c t => String c (str_take n' t)
  | _, _ => ""
  end.

Fixpoint str_drop (n : nat) (s : string) : string :=
  match n, s with
  | S n', String _ t => str_drop n' t
  | _, _ => s
  end.

(** [s[:hi]]; panics when [hi > len(s)]. *)
Definition sliceTo (s : string) (hi : nat) : option string :=
  if decide (hi ≤ len s)%nat then Some (str_take hi s) else None.

(** [s[lo:]]; panics when [lo > len(s)]. *)
Definition sliceFrom (s : string) (lo : nat) : option string :=
  if decide (lo ≤ len s)%nat then Some (str_drop lo s) else None.

(** [s[i]]; panics when [i >= len(s)]. *)
Definition index (s : string) (i : nat) : option ascii := String.get i s.

(** ** Go's [for i, r := range s]: UTF-8 decoding of a string

    The constants and [decoderune] follow the Go runtime: an ill-formed
    sequence yields [runeError] and advances by one byte. *)

Definition runeSelf : Z := 128.
Definition runeError : Z := 65533.
Definition maxRune : Z := 1114111.
Definition surrogateMin : Z := 55296.
Definition surrogateMax : Z := 57343.
Definition t2 : Z := 192.
Definition t3 : Z := 224.
Definition t4 : Z := 240.
Definition t5 : Z := 248.
Definition maskx : Z := 63.
Definition mask2 : Z := 31.
Definition mask3 : Z := 15.
Definition mask4 : Z := 7.
Definition rune1Max : Z := 127.
Definition rune2Max : Z := 2047.
Definition rune3Max : Z := 65535.
Definition locb : Z := 128.
Definition hicb : Z := 191.

Definition isCont (b : Z) : bool := (locb <=? b)%Z && (b <=? hicb)%Z.

(** The byte [s[i]] as read under a [len(s) > i] guard. *)
Definition byteAt (s : string) (i : nat) : Z :=
  from_option byteVal 0%Z (String.get i s).

(** [decoderune s]: the rune at the head of [s] and its width in bytes. *)
Definition decoderune (s : string) : Z * nat :=
  let b0 := byteAt s 0 in
  let b1 := byteAt s 1 in
  let b2 := byteAt s 2 in
  let b3 := byteAt s 3 in
  if (t2 <=? b0)%Z && (b0 <? t3)%Z then
    let r := Z.lor (Z.shiftl (Z.land b0 mask2) 6) (Z.land b1 maskx) in
    if bool_decide (1 < len s)%nat && isCont b1 && (rune1Max <? r)%Z
    then (r, 2) else (runeError, 1)
  else if (t3 <=? b0)%Z && (b0 <? t4)%Z then
    let r := Z.lor (Z.lor (Z.shiftl (Z.land b0 mask3) 12)
                          (Z.shiftl (Z.land b1 maskx) 6))
                   (Z.land b2 maskx) in
    if bool_decide (2 < len s)%nat && isCont b1 && isCont b2 && (rune2Max <? r)%Z
       && negb ((surrogateMin <=? r)%Z && (r <=? surrogateMax)%Z)
    then (r, 3) else (runeError, 1)
  else if (t4 <=? b0)%Z && (b0 <? t5)%Z then
    let r := Z.lor (Z.lor (Z.lor (Z.shiftl (Z.land b0 mask4) 18)
                                 (Z.shiftl (Z.land b1 maskx) 12))
                          (Z.shiftl (Z.land b2 maskx) 6))
                   (Z.land b3 maskx) in
    if bool_decide (3 < len s)%nat && isCont b1 && isCont b2 && isCont b3
       && (rune3Max <? r)%Z && (r <=? maxRune)%Z
    then (r, 4) else (runeError, 1)
  else (runeError, 1).

(** One step of the range loop: bytes below [runeSelf] are their own rune. *)
Definition nextRune (s : string) : Z * nat :=
  if (byteAt s 0 <? runeSelf)%Z then (byteAt s 0, 1) else decoderune s.

(** The (byte index, rune) pairs visited by [range s], starting at byte
    index [i] with [skip] bytes of the current rune still to be passed. *)
Fixpoint rangeFrom (i skip : nat) (s : string) : list (nat * Z) :=
  match s with
  | EmptyString => []
  | String _ t =>
    match skip with
    | S k => rangeFrom (S i) k t
    | O => let '(r, w) := nextRune s in (i, r) :: rangeFrom (S i) (pred w) t
    end
  end.

Definition rangeString (s : string) : list (nat * Z) := rangeFrom 0 0 s.

(** ** [ReplaceInvalidChars] *)

(** The character class tested in the loop body:
    the complement of [[^a-zA-Z0-9_]]. *)
Definition validChar (charInt : Z) : bool :=
  ((97 <=? charInt)%Z && (charInt <=? 122)%Z)
  || ((65 <=? charInt)%Z && (charInt <=? 90)%Z)
  || ((48 <=? charInt)%Z && (charInt <=? 57)%Z)
  || (charInt =? 95)%Z.

(** The loop body's assignment: the bytes before [charIndex], an
    underscore, and the bytes from [charIndex+1] on. *)
Definition replaceAt (cur : string) (charIndex : nat) : option string :=
  pre ← sliceTo cur charIndex;
  post ← sliceFrom cur (charIndex + 1);
  Some (pre +:+ "_" +:+ post).

(** The loop over the runes of the original string; [cur] is the string
    currently stored behind the pointer [in]. *)
Fixpoint replaceLoop (its : list (nat * Z)) (cur : string) : option string :=
  match its with
  | [] => Some cur
  | (charIndex, char) :: rest =>
    if validChar char then replaceLoop rest cur
    else cur' ← replaceAt cur charIndex; replaceLoop rest cur'
  end.

Definition isDigit (b : Z) : bool := (48 <=? b)%Z && (b <=? 57)%Z.

Definition ReplaceInvalidChars (s : string) : option string :=
  cur ← replaceLoop (rangeString s) s;
  c0 ← index cur 0;
  if isDigit (byteVal c0) then Some ("_" +:+ cur) else Some cur.

(** ** [strings.Join] and [sort.Strings] *)

Fixpoint Join (elems : list string) (sep : string) : string :=
  match elems with
  | [] => ""
  | [e] => e
  | e :: rest => e +:+ sep +:+ Join rest sep
  end.

(** [sort.Strings]: ascending byte-wise lexical order. *)
Definition sortStrings (a : list string) : list string :=
  merge_sort String.le a.

(** ** [float64] values and the conversions of the type switch *)

Definition float64 : Type := spec_float.

Definition in_int64 (v : Z) : Prop := (- 2 ^ 63 <= v < 2 ^ 63)%Z.

(** [float64(v)] for [v : int64]: IEEE 754 binary64, round to nearest even. *)
Definition float64_of_int64 (v : Z) : float64 := binary_normalize 53 1024 v 0 false.

(** The constants [1] and [0] assigned in the [bool] case. *)
Definition float64_one : float64 := float64_of_int64 1.
Definition float64_zero : float64 := float64_of_int64 0.

(** [SFisZ f z]: the float [f] is finite and its value is the integer [z]. *)
Definition SFisZ (f : float64) (z : Z) : bool :=
  match f with
  | S754_zero _ => (z =? 0)%Z
  | S754_finite s m e =>
    if (0 <=? e)%Z then (cond_Zopp s (Zpos m) * 2 ^ e =? z)%Z
    else (cond_Zopp s (Zpos m) =? z * 2 ^ (- e))%Z
  | _ => false
  end.

(** ** The decoded points ([models.Point]) *)

Module models.

(** The dynamic types a field value can have. *)
Inductive FieldValue :=
  | FloatValue (v : float64)
  | IntValue (v : Z)
  | UintValue (v : Z)
  | StringValue (v : string)
  | BoolValue (v : bool).

Record Tag := { Key : string; Value : string }.

(** [Fields] is the result of [Fields()]: the field map, given as the
    sequence in which [range] visits it, or an error. *)
Record Point := {
  Name : string;
  Tags : list Tag;
  Fields : list (string * FieldValue) + string;
  Time : Z
}.

End models.

(** ** [influxDBSample] *)

Record influxDBSample := {
  ID : string;
  Name : string;
  Labels : gmap string string;
  Value : float64;
  Timestamp : Z
}.

(** The type switch on a field value; [None] is the [default: continue]. *)
Definition coerce (v : models.FieldValue) : option float64 :=
  match v with
  | models.FloatValue v => Some v
  | models.IntValue v => Some (float64_of_int64 v)
  | models.BoolValue v => Some (if v then float64_one else float64_zero)
  | _ => None
  end.

Definition metricName (s : models.Point) (field : string) : string :=
  if decide (field = "value") then models.Name s
  else models.Name s +:+ "_" +:+ field.

(** The loop over [s.Tags()] filling [sample.Labels]. *)
Fixpoint labelLoop (tags : list models.Tag) (labels : gmap string string)
  : option (gmap string string) :=
  match tags with
  | [] => Some labels
  | v :: rest =>
    let key := models.Key v in
    if decide (key = "__name__") then labelLoop rest labels
    else key ← ReplaceInvalidChars key;
         labelLoop rest (<[key := models.Value v]> labels)
  end.

(** The sample ID: [labelnames] are the keys of [labels] as collected by
    the [range] over the map, in whatever order the runtime visits them. *)
Definition sampleID (name : string) (labels : gmap string string)
    (labelnames : list string) : string :=
  let labelnames := sortStrings labelnames in
  let parts := name :: (l ← labelnames; [l; labels !!! l]) in
  Join parts ".".

(** ** The process: output streams, the logger, exit and panic

    [stdout] and [stderr] are the bytes written to the two streams.
    [logged] is a trace of the records handed to the logger, kept beside
    the bytes the logger writes to the error stream. *)

Record World := {
  stdout : string;
  stderr : string;
  logged : list string
}.

Inductive Outcome (A : Type) :=
  | Done (a : A) (w : World)
  | Exited (code : Z) (w : World)
  | Panicked (w : World).
Arguments Done {A} a w.
Arguments Exited {A} code w.
Arguments Panicked {A} w.

Definition Proc (A : Type) : Type := World → Outcome A.

Global Instance Proc_ret : MRet Proc := λ A a w, Done a w.

Global Instance Proc_bind : MBind Proc := λ A B k c w,
  match c w with
  | Done a w' => k a w'
  | Exited code w' => Exited code w'
  | Panicked w' => Panicked w'
  end.

(** A computation of the option monad run in the process: [None] panics. *)
Definition orPanic {A} (o : option A) : Proc A := λ w,
  match o with
  | Some a => Done a w
  | None => Panicked w
  end.

Definition writeStdout (out : string) : Proc unit := λ w,
  Done () {| stdout := stdout w +:+ out; stderr := stderr w; logged := logged w |}.

Definition writeStderr (out : string) : Proc unit := λ w,
  Done () {| stdout := stdout w; stderr := stderr w +:+ out; logged := logged w |}.

(** [os.Exit(code)] *)
Definition osExit {A} (code : Z) : Proc A := λ w, Exited code w.

(** The parts of [clientModel.MetricFamily] that the program fills in. *)
Module clientModel.

Inductive MetricType := MetricType_UNTYPED.

Record MetricFamily (DtoMetric : Type) := {
  Name : string;
  Help : string;
  Type_ : MetricType;
  Metric : list DtoMetric
}.
Arguments Build_MetricFamily {DtoMetric} _ _ _ _.
Arguments Name {DtoMetric} _.
Arguments Help {DtoMetric} _.
Arguments Type_ {DtoMetric} _.
Arguments Metric {DtoMetric} _.

End clientModel.

Section exporter.

(** The collaborators outside the repository, taken as parameters. *)

(** The order in which [range] visits the keys of a label map. *)
Context (rangeKeys : gmap string string → list string).
(** [fmt.Sprintf] of a format string without operands. *)
Context (Sprintf : string → string).
(** The process-wide [logger] set up by [init] with [promlog.New]: the
    line it writes to standard error for the key/value pairs of one [Log]
    call, with the timestamp and the caller it adds. *)
Context (logger : list (string * string) → string).
(** [prometheus.Metric] and the [clientModel.Metric] it is written to. *)
Context {PromMetric DtoMetric : Type}.
(** [MustNewConstMetric(NewDesc(name, help, [], labels), UntypedValue, value)];
    [None] when it panics. *)
Context (MustNewConstMetric :
  string → gmap string string → float64 → option PromMetric).
Context (NewMetricWithTimestamp : Z → PromMetric → PromMetric).
(** [metric.Write(&dtoMetric)]: the filled record, or the error. *)
Context (Write : PromMetric → DtoMetric + string).
(** [enc.Encode(&mf)] on an encoder over standard output: the bytes
    written and the error returned, if any. *)
Context (Encode : clientModel.MetricFamily DtoMetric → string * option string).
(** [os.Open], [ioutil.ReadAll] and [models.ParsePointsWithPrecision]. *)
Context {File : Type}.
Context (Open : string → File + string).
Context (ReadAll : File → string + string).
(** [time.Now().UTC()], in nanoseconds. *)
Context (Now : Z).
Context (ParsePointsWithPrecision :
  string → Z → string → list models.Point + string).

Definition handleErr {A} (err : string) : Proc A :=
  _ ← writeStderr (Sprintf err); osExit 1.

(** [level.Error(logger).Log("msg", msg, "err", err)] *)
Definition logError (msg err : string) : Proc unit := λ w,
  Done () {| stdout := stdout w;
             stderr := stderr w
                       +:+ logger [("level", "error"); ("msg", msg); ("err", err)];
             logged := logged w ++ [msg +:+ ": " +:+ err] |}.

(** Lines 68-102: name, labels and ID of the sample for one field. *)
Definition buildSample (s : models.Point) (field : string) (value : float64)
  : option influxDBSample :=
  name ← ReplaceInvalidChars (metricName s field);
  labels ← labelLoop (models.Tags s) ∅;
  Some {| ID := sampleID name labels (rangeKeys labels);
          Name := name;
          Labels := labels;
          Value := value;
          Timestamp := models.Time s |}.

(** Lines 104-128: the metric family of a sample, written and encoded. *)
Definition emitSample (sample : influxDBSample) : Proc unit :=
  metric ← orPanic (MustNewConstMetric (Name sample) (Labels sample) (Value sample));
  let metric := NewMetricWithTimestamp (Timestamp sample) metric in
  dtoMetric ← match Write metric with
              | inl dto => mret dto
              | inr err => handleErr err
              end;
  let mf := clientModel.Build_MetricFamily (Name sample) "InfluxDB Metric"
              clientModel.MetricType_UNTYPED [dtoMetric] in
  writeStdout (Encode mf).1.

(** The body of the loop over the fields of a point. *)
Definition fieldBody (s : models.Point) (field : string)
    (v : models.FieldValue) : Proc unit :=
  match coerce v with
  | None => mret ()
  | Some value =>
    sample ← orPanic (buildSample s field value);
    emitSample sample
  end.

Fixpoint fieldLoop (s : models.Point)
    (fields : list (string * models.FieldValue)) : Proc unit :=
  match fields with
  | [] => mret ()
  | (field, v) :: rest => _ ← fieldBody s field v; fieldLoop s rest
  end.

Fixpoint parsePointsToSample (points : list models.Point) : Proc unit :=
  match points with
  | [] => mret ()
  | s :: rest =>
    _ ← match models.Fields s with
        | inr err => logError "error getting fields from point" err
        | inl fields => fieldLoop s fields
        end;
    parsePointsToSample rest
  end.

(** [main]: [args] is [os.Args]. *)
Definition main (args : list string) : Proc unit :=
  path ← orPanic (args !! 1%nat);
  file ← match Open path with
         | inl f => mret f
         | inr err => handleErr err
         end;
  buf ← match ReadAll file with
        | inl b => mret b
        | inr err => handleErr err
        end;
  points ← match ParsePointsWithPrecision buf Now "ns" with
           | inl ps => mret ps
           | inr err => handleErr err
           end;
  parsePointsToSample points.

End exporter.

(** A tag takes part in labeling unless its raw key is the reserved one. *)
Definition labeled (t : models.Tag) : Prop := models.Key t ≠ "__name__".

(** ** A closed form of the rewriting loop

    [rewriteFrom skip s] is what the loop leaves of the bytes [s] when
    [skip] of them still belong to the rune decoded last: the first byte of
    every rune outside the character class becomes an underscore, the other
    bytes stay. *)
Fixpoint rewriteFrom (skip : nat) (s : string) : string :=
  match s with
  | EmptyString => ""
  | String c t =>
    match skip with
    | S k => String c (rewriteFrom k t)
    | O =>
      let '(r, w) := nextRune s in
      String (if validChar r then c else "_"%char) (rewriteFrom (pred w) t)
    end
  end.

(** All bytes of [s] satisfy [P]. *)
Fixpoint allBytes (P : Z → bool) (s : string) : bool :=
  match s with
  | EmptyString => true
  | String c t => P (byteVal c) && allBytes P t
  end.

Definition isASCII (b : Z) : bool := (b <? runeSelf)%Z.

(** No byte of [s] is the separator of the ID. *)
Definition dotFree (s : string) : bool := allBytes (λ b, negb (b =? 46)%Z) s.

(** The first [k] bytes of [t] are continuation bytes. *)
Fixpoint contPrefix (k : nat) (t : string) : bool :=
  match k, t with
  | S k', String c t' => isCont (byteVal c) && contPrefix k' t'
  | _, _ => true
  end.

(** An allowed character, or a byte above the ASCII range. *)
Definition validOrHigh (b : Z) : bool := validChar b || negb (isASCII b).

(** ** Concrete inputs used in the examples below *)

Definition point_ab : models.Point :=
  {| models.Name := "cpu";
     models.Tags := [models.Build_Tag "host" "a"; models.Build_Tag "dc" "x"];
     models.Fields := inl [("value", models.IntValue 1)];
     models.Time := 1000000000 |}.

Definition point_ba : models.Point :=
  {| models.Name := "cpu";
     models.Tags := [models.Build_Tag "dc" "x"; models.Build_Tag "host" "a"];
     models.Fields := inl [("value", models.IntValue 1)];
     models.Time := 1000000000 |}.

Definition keysAscending (m : gmap string string) : list string := elements (dom m).
Definition keysDescending (m : gmap string string) : list string := reverse (elements (dom m)).

Definition tag_a_dash_b : models.Tag := models.Build_Tag "a-b" "first".
Definition tag_a_dot_b : models.Tag := models.Build_Tag "a.b" "second".
Definition tag_host : models.Tag := models.Build_Tag "host" "h1".

Definition point_reserved : models.Point :=
  {| models.Name := "cpu";
     models.Tags := [models.Build_Tag "__name_-" "x"];
     models.Fields := inl [("value", models.IntValue 1)];
     models.Time := 1000000000 |}.

Definition point_cpu : models.Point :=
  {| models.Name := "cpu";
     models.Tags := [models.Build_Tag "host" "a"];
     models.Fields := inl [("usage", models.IntValue 42); ("idle", models.BoolValue true)];
     models.Time := 1000000000 |}.

Definition point_dots1 : models.Point :=
  {| models.Name := "m";
     models.Tags := [models.Build_Tag "a" "1.b.2"; models.Build_Tag "b" "3"];
     models.Fields := inl [("value", models.IntValue 1)];
     models.Time := 1000000000 |}.

Definition point_dots2 : models.Point :=
  {| models.Name := "m";
     models.Tags := [models.Build_Tag "a" "1"; models.Build_Tag "b" "2.b.3"];
     models.Fields := inl [("value", models.IntValue 1)];
     models.Time := 1000000000 |}.

(** The two bytes of the UTF-8 encoding of U+00E9. *)
Definition e_acute : string := String "195" (String "169" "").

Definition sample_cpu : influxDBSample :=
  {| ID := "cpu"; Name := "cpu"; Labels := ∅; Value := float64_one;
     Timestamp := 1000000000 |}.

Definition world0 : World := {| stdout := ""; stderr := ""; logged := [] |}.

(** An encoder whose writer is closed: nothing is written, an error is
    returned. *)
Definition EncodeClosed (mf : clientModel.MetricFamily influxDBSample)
  : string * option string := ("", Some "write /dev/stdout: file already closed").

(** Test doubles of the metric constructors: the metric is the sample. *)
Definition constMetric (n : string) (l : gmap string string) (v : float64)
  : option influxDBSample :=
  Some {| ID := ""; Name := n; Labels := l; Value := v; Timestamp := 0 |}.

Definition withTimestamp (ts : Z) (m : influxDBSample) : influxDBSample :=
  {| ID := ID m; Name := Name m; Labels := Labels m; Value := Value m;
     Timestamp := ts |}.

(** A logger that writes the pairs as [key=value] words and a newline. *)
Definition loggerPlain (keyvals : list (string * string)) : string :=
  String.concat " " (map (λ kv, kv.1 +:+ "=" +:+ kv.2) keyvals)
  +:+ String "010" "".

(** An encoder that writes the family name and a semicolon. *)
Definition EncodeName (mf : clientModel.MetricFamily influxDBSample)
  : string * option string := (clientModel.Name mf +:+ ";", None).

Definition point_broken : models.Point :=
  {| models.Name := "disk";
     models.Tags := [];
     models.Fields := inr "unable to unmarshal field";
     models.Time := 1000000000 |}.

Definition point_9cpu : models.Point :=
  {| models.Name := "9cpu";
     models.Tags := [];
     models.Fields := inl [("value", models.IntValue 1); ("note", models.StringValue "x")];
     models.Time := 1000000000 |}.

(** ** Notions used to state the behaviour of the code *)

(** What the regular expression of the source comment does to one byte. *)
Definition sanitizeByte (c : ascii) : ascii :=
  if validChar (byteVal c) then c else "_"%char.

(** The first byte of [s] is a digit. *)
Definition startsWithDigit (s : string) : bool :=
  match s with
  | EmptyString => false
  | String c _ => isDigit (byteVal c)
  end.

(** Non-empty, allowed characters only, no digit in front. *)
Definition isIdentifier (s : string) : bool :=
  match s with
  | EmptyString => false
  | String c _ => negb (isDigit (byteVal c)) && allBytes validChar s
  end.

(** The label key a tag gives rise to, if it takes part and its key can be
    sanitized. *)
Definition labelKey (t : models.Tag) : option string :=
  if decide (labeled t) then ReplaceInvalidChars (models.Key t) else None.

(** The log entries for the points whose fields cannot be read. *)
Definition fieldsErrors (points : list models.Point) : list string :=
  omap (λ p, match models.Fields p with
             | inr err => Some ("error getting fields from point" +:+ ": " +:+ err)
             | inl _ => None
             end) points.

(** A field whose value the type switch converts. *)
Definition numeric (fv : string * models.FieldValue) : Prop :=
  is_Some (coerce fv.2).

(** A [Write] that always fails. *)
Definition WriteFails (m : influxDBSample) : influxDBSample + string :=
  inr "write failed".

(** A file system without the requested file, and one whose only file
    holds a line that does not parse. *)
Definition OpenMissing (path : string) : unit + string :=
  inr "open: no such file or directory".

Definition OpenFound (path : string) : unit + string := inl ().

Definition ReadAllLine (f : unit) : string + string := inl "cpu".

Definition ParseFails (buf : string) (now : Z) (precision : string)
  : list models.Point + string := inr "unable to parse: missing fields".

(** The lines the logger writes to the error stream for the points whose
    fields cannot be read. *)
Fixpoint fieldsErrorLines (logger : list (string * string) → string)
    (points : list models.Point) : string :=
  match points with
  | [] => ""
  | p :: rest =>
    match models.Fields p with
    | inr err =>
      logger [("level", "error"); ("msg", "error getting fields from point");
              ("err", err)]
      +:+ fieldsErrorLines logger rest
    | inl _ => fieldsErrorLines logger rest
    end
  end.

(** The sample of field [field] of point [s] is built and its metric
    constructed, and writing that metric fails with [err]. *)
Definition writeFailsAt {PromMetric DtoMetric : Type}
    (rangeKeys : gmap string string → list string)
    (MustNewConstMetric : string → gmap string string → float64 → option PromMetric)
    (NewMetricWithTimestamp : Z → PromMetric → PromMetric)
    (Write : PromMetric → DtoMetric + string)
    (s : models.Point) (field : string) (v : models.FieldValue) (err : string)
  : Prop :=
  ∃ value sample metric,
    coerce v = Some value
    ∧ buildSample rangeKeys s field value = Some sample
    ∧ MustNewConstMetric (Name sample) (Labels sample) (Value sample) = Some metric
    ∧ Write (NewMetricWithTimestamp (Timestamp sample) metric) = inr err.

(** The metric of every sample built from field [fv] of point [s] is
    constructed and written without failure. *)
Definition emitsCleanly {PromMetric DtoMetric : Type}
    (rangeKeys : gmap string string → list string)
    (MustNewConstMetric : string → gmap string string → float64 → option PromMetric)
    (NewMetricWithTimestamp : Z → PromMetric → PromMetric)
    (Write : PromMetric → DtoMetric + string)
    (s : models.Point) (fv : string * models.FieldValue) : Prop :=
  ∀ value sample,
    coerce fv.2 = Some value →
    buildSample rangeKeys s fv.1 value = Some sample →
    ∃ metric dto,
      MustNewConstMetric (Name sample) (Labels sample) (Value sample) = Some metric
      ∧ Write (NewMetricWithTimestamp (Timestamp sample) metric) = inl dto.

(** A metric constructor that, like the library's, refuses the reserved
    label name. *)
Definition constMetricStrict (n : string) (l : gmap string string) (v : float64)
  : option influxDBSample :=
  if decide (is_Some (l !! "__name__")) then None else constMetric n l v.

(** A parser that returns an unreadable point followed by a good one. *)
Definition ParseBatch (buf : string) (now : Z) (precision : string)
  : list models.Point + string := inl [point_broken; point_9cpu].

(** ** Rounding to nearest, ties to even

    The reference notions against which the conversion of [int64] values
    is stated, and the invariant of the right shift that the conversion
    performs. *)

Section rounding_defs.

Local Open Scope Z_scope.

(** [M] shifted right by [n] bits and rounded to nearest, ties to even. *)
Definition roundShift (M n : Z) : Z :=
  let q := M / 2 ^ n in
  let r := M mod 2 ^ n in
  match 2 * r ?= 2 ^ n with
  | Lt => q
  | Eq => if Z.even q then q else q + 1
  | Gt => q + 1
  end.

(** [float64(v)] as a function on integers: the nearest integer that has
    at most 53 significant bits, the nearer of the two neighbours being
    chosen and, when [v] is half way between them, the one whose
    53-bit significand is even. *)
Definition roundNearestEven53 (i : Z) : Z :=
  let a := Z.abs i in
  let n := Z.max 0 (Zdigits2 a - 53) in
  Z.sgn i * (roundShift a n * 2 ^ n).

(** [r] is [i] rounded to 53 significant bits, to nearest, ties to even:
    a multiple [m * 2^n] of the weight [2^n] of the last bit kept, with [m]
    of at most 53 bits (or [2^53] itself), at most half that weight away
    from [i], and with [m] even when exactly half way. *)
Definition isNearestEven53 (i r : Z) : Prop :=
  let n := Z.max 0 (Zdigits2 (Z.abs i) - 53) in
  ∃ m, r = m * 2 ^ n
       ∧ Z.abs m <= 2 ^ 53
       ∧ 2 * Z.abs (r - i) <= 2 ^ n
       ∧ (2 * Z.abs (r - i) = 2 ^ n → Z.even m = true).

(** The location of a remainder [R] below [2^k], as the shift records it. *)
Definition locOf (R k : Z) : location :=
  if R =? 0 then loc_Exact else loc_Inexact (2 * R ?= 2 ^ k).

(** After [k] one-bit shifts of [M] the record holds the quotient of [M] by
    [2^k], and its two flags locate the remainder. *)
Definition shrInv (M k : Z) (rec : shr_record) : Prop :=
  0 <= shr_m rec
  ∧ ∃ R, M = shr_m rec * 2 ^ k + R ∧ 0 <= R < 2 ^ k
         ∧ loc_of_shr_record rec = locOf R k.

End rounding_defs.

(** [mapBytes f s]: [f] applied to every byte of [s]. *)
Fixpoint mapBytes (f : ascii → ascii) (s : string) : string :=
  match s with
  | EmptyString => ""
  | String c t => String (f c) (mapBytes f t)
  end.

Definition point_9cpu_load : models.Point :=
  {| models.Name := "9cpu-load";
     models.Tags := [models.Build_Tag "host" "a"];
     models.Fields := inl [("usage.pct", models.FloatValue float64_one)];
     models.Time := 1000000000 |}.

(** * Properties *)

(** ** The sanitizer in general *)

Lemma app_String c s t : String c s +:+ t = String c (s +:+ t).
Proof. reflexivity. Qed.

Lemma app_assoc_str s t u : (s +:+ t) +:+ u = s +:+ (t +:+ u).
Proof. induction s as [|c s IH]; [done|]. by rewrite !app_String, IH. Qed.

Lemma len_app s t : len (s +:+ t) = len s + len t.
Proof. induction s as [|c s IH]; [done|]. rewrite app_String. simpl. by rewrite IH. Qed.

Lemma sliceTo_app pre s : sliceTo (pre +:+ s) (len pre) = Some pre.
Proof.
  unfold sliceTo. rewrite decide_True by (rewrite len_app; lia). f_equal.
  induction pre as [|c pre IH]; [by destruct s|].
  rewrite app_String. simpl. by rewrite IH.
Qed.

Lemma sliceFrom_app pre c t :
  sliceFrom (pre +:+ String c t) (len pre + 1) = Some t.
Proof.
  unfold sliceFrom. rewrite decide_True by (rewrite len_app; simpl; lia). f_equal.
  induction pre as [|c' pre IH]; [done|].
  rewrite app_String. simpl. by rewrite IH.
Qed.

Lemma replaceAt_app pre c t :
  replaceAt (pre +:+ String c t) (len pre) = Some (pre +:+ String "_" t).
Proof.
  unfold replaceAt. rewrite sliceTo_app. simpl.
  rewrite sliceFrom_app. simpl. by rewrite app_String.
Qed.

Lemma snoc_app pre c t : pre +:+ String c t = (pre +:+ String c "") +:+ t.
Proof. by rewrite app_assoc_str, app_String. Qed.

Lemma len_snoc pre c : len (pre +:+ String c "") = S (len pre).
Proof. rewrite len_app. simpl. lia. Qed.

(** The loop never panics, and computes [rewriteFrom]. *)
Lemma replaceLoop_rangeFrom s pre skip :
  replaceLoop (rangeFrom (len pre) skip s) (pre +:+ s)
  = Some (pre +:+ rewriteFrom skip s).
Proof.
  revert pre skip. induction s as [|c t IH]; intros pre skip; [done|].
  destruct skip as [|k]; simpl rangeFrom; simpl rewriteFrom.
  - destruct (nextRune (String c t)) as [r w]. simpl replaceLoop.
    destruct (validChar r).
    + rewrite <- len_snoc with (c := c), (snoc_app pre c t), IH.
      by rewrite <- snoc_app.
    + rewrite replaceAt_app. simpl.
      rewrite <- len_snoc with (c := "_"%char), (snoc_app pre "_" t), IH.
      by rewrite <- snoc_app.
  - rewrite <- len_snoc with (c := c), (snoc_app pre c t), IH.
    by rewrite <- snoc_app.
Qed.

Lemma replaceLoop_rangeString s :
  replaceLoop (rangeString s) s = Some (rewriteFrom 0 s).
Proof. apply (replaceLoop_rangeFrom s "" 0). Qed.

Lemma rewriteFrom_length skip s : len (rewriteFrom skip s) = len s.
Proof.
  revert skip. induction s as [|c t IH]; intros skip; [done|].
  destruct skip; simpl; [destruct (nextRune _)|]; simpl; by rewrite IH.
Qed.

(** The rewriting loop keeps the length of the string. *)
Lemma replaceLoop_length s r :
  replaceLoop (rangeString s) s = Some r → len r = len s.
Proof.
  rewrite replaceLoop_rangeString. intros [= <-]. apply rewriteFrom_length.
Qed.

(** The function panics on the empty string and on no other input. *)
Lemma ReplaceInvalidChars_None s : ReplaceInvalidChars s = None ↔ s = "".
Proof.
  unfold ReplaceInvalidChars. rewrite replaceLoop_rangeString. simpl.
  pose proof (rewriteFrom_length 0 s) as Hlen.
  destruct (rewriteFrom 0 s) as [|c0 cur]; destruct s; simpl in *; try done.
  destruct (isDigit _); done.
Qed.

(** A result is one byte longer than the input when the digit prefix is
    added, and as long as the input otherwise. *)
Lemma ReplaceInvalidChars_length s r :
  ReplaceInvalidChars s = Some r → len r = len s ∨ len r = S (len s).
Proof.
  unfold ReplaceInvalidChars. rewrite replaceLoop_rangeString. simpl.
  pose proof (rewriteFrom_length 0 s) as Hlen.
  destruct (rewriteFrom 0 s) as [|c0 cur]; [done|]. simpl.
  destruct (isDigit _); intros [= <-]; [right|left]; simpl in *; lia.
Qed.

Lemma validChar_isASCII b : validChar b = true → isASCII b = true.
Proof.
  unfold validChar, isASCII, runeSelf. intros H.
  apply Z.ltb_lt. repeat (apply orb_prop in H as [H|H]);
    try (apply andb_prop in H as [_ H%Z.leb_le]; lia).
  apply Z.eqb_eq in H. lia.
Qed.

Lemma nextRune_ASCII c t :
  isASCII (byteVal c) = true → nextRune (String c t) = (byteVal c, 1).
Proof. unfold nextRune, isASCII, byteAt. simpl. by intros ->. Qed.

Lemma rewriteFrom_ASCII s :
  allBytes isASCII s = true → allBytes validChar (rewriteFrom 0 s) = true.
Proof.
  induction s as [|c t IH]; [done|]. simpl allBytes.
  intros [Hc Ht]%andb_prop. simpl. rewrite (nextRune_ASCII _ _ Hc). simpl.
  rewrite (IH Ht), andb_true_r.
  by destruct (validChar (byteVal c)) eqn:Hv.
Qed.

Lemma rewriteFrom_valid s :
  allBytes validChar s = true → rewriteFrom 0 s = s.
Proof.
  induction s as [|c t IH]; [done|]. simpl allBytes.
  intros [Hc Ht]%andb_prop. simpl.
  rewrite (nextRune_ASCII _ _ (validChar_isASCII _ Hc)), Hc. simpl.
  by rewrite (IH Ht).
Qed.

(** On input made of ASCII bytes the result holds allowed characters only. *)
Lemma ReplaceInvalidChars_ASCII s r :
  allBytes isASCII s = true → ReplaceInvalidChars s = Some r →
  allBytes validChar r = true.
Proof.
  intros Hs. unfold ReplaceInvalidChars. rewrite replaceLoop_rangeString. simpl.
  pose proof (rewriteFrom_ASCII s Hs) as Hv.
  destruct (rewriteFrom 0 s) as [|c0 cur]; [done|]. simpl.
  destruct (isDigit _); intros [= <-]; done.
Qed.

(** A string of allowed characters that does not start with a digit is
    left as it is. *)
Lemma ReplaceInvalidChars_fixpoint c0 cur :
  allBytes validChar (String c0 cur) = true → isDigit (byteVal c0) = false →
  ReplaceInvalidChars (String c0 cur) = Some (String c0 cur).
Proof.
  intros Hv Hd. unfold ReplaceInvalidChars.
  rewrite replaceLoop_rangeString, (rewriteFrom_valid _ Hv). simpl. by rewrite Hd.
Qed.

(** On input made of ASCII bytes a second application changes nothing. *)
Lemma ReplaceInvalidChars_ASCII_idempotent s r :
  allBytes isASCII s = true → ReplaceInvalidChars s = Some r →
  ReplaceInvalidChars r = Some r.
Proof.
  intros Hs Hr. pose proof (ReplaceInvalidChars_ASCII s r Hs Hr) as Hv.
  revert Hr Hv. unfold ReplaceInvalidChars at 1.
  rewrite replaceLoop_rangeString. simpl.
  destruct (rewriteFrom 0 s) as [|c0 cur]; [done|]. simpl.
  destruct (isDigit (byteVal c0)) eqn:Hd; intros [= <-] Hv.
  - by apply ReplaceInvalidChars_fixpoint.
  - by apply ReplaceInvalidChars_fixpoint.
Qed.

(** A leading digit gets an underscore put in front of it. *)
Lemma ReplaceInvalidChars_digit_prefix c t :
  isDigit (byteVal c) = true →
  ∃ r, ReplaceInvalidChars (String c t) = Some (String "_" r).
Proof.
  intros Hd. unfold ReplaceInvalidChars. rewrite replaceLoop_rangeString.
  assert (isASCII (byteVal c) = true) as Ha.
  { apply validChar_isASCII. unfold validChar. unfold isDigit in Hd.
    rewrite Hd. by rewrite !orb_true_r. }
  simpl. rewrite (nextRune_ASCII _ _ Ha). simpl.
  assert (validChar (byteVal c) = true) as ->.
  { unfold validChar. unfold isDigit in Hd. rewrite Hd. by rewrite !orb_true_r. }
  rewrite Hd. by eexists.
Qed.

Lemma runeError_invalid : validChar runeError = false.
Proof. reflexivity. Qed.

Lemma validChar_high r : (rune1Max < r)%Z → validChar r = false.
Proof.
  intros Hr. destruct (validChar r) eqn:Hv; [|done].
  apply validChar_isASCII in Hv. unfold isASCII, runeSelf in Hv.
  apply Z.ltb_lt in Hv. unfold rune1Max in Hr. lia.
Qed.

Lemma decoderune_spec c t r w :
  decoderune (String c t) = (r, w) →
  validChar r = false ∧ contPrefix (pred w) t = true.
Proof.
  unfold decoderune.
  repeat case_match; intros [= <- <-]; (split; [try apply runeError_invalid|try done]).
  all: repeat match goal with H : _ && _ = true |- _ => apply andb_prop in H as [? ?] end.
  all: try (apply validChar_high;
            repeat match goal with H : (_ <? _)%Z = true |- _ => apply Z.ltb_lt in H end;
            unfold rune1Max, rune2Max, rune3Max in *; lia).
  all: destruct t as [|c1 [|c2 [|c3 t3]]]; simpl in *; try done.
  all: unfold byteAt in *; simpl in *.
  all: repeat match goal with H : ?x = true |- context [?x] => rewrite H end; try done.
Qed.

Lemma nextRune_spec c t r w :
  nextRune (String c t) = (r, w) →
  (validChar r = true → validChar (byteVal c) = true)
  ∧ contPrefix (pred w) t = true.
Proof.
  unfold nextRune. case_match.
  - intros [= <- <-]. done.
  - intros [Hr Hc]%decoderune_spec. split; [|done]. by rewrite Hr.
Qed.

Lemma rewriteFrom_validOrHigh s skip :
  contPrefix skip s = true → allBytes validOrHigh (rewriteFrom skip s) = true.
Proof.
  revert skip. induction s as [|c t IH]; intros skip Hskip; [done|].
  destruct skip as [|k]; simpl.
  - destruct (nextRune (String c t)) as [r w] eqn:Hn.
    apply nextRune_spec in Hn as [Hv Hc]. simpl.
    rewrite (IH _ Hc), andb_true_r. unfold validOrHigh.
    destruct (validChar r); [by rewrite Hv|done].
  - simpl in Hskip. apply andb_prop in Hskip as [Hc Hk].
    rewrite (IH _ Hk), andb_true_r. unfold validOrHigh, isASCII, runeSelf.
    unfold isCont, locb in Hc. apply andb_prop in Hc as [Hc%Z.leb_le _].
    destruct (Z.ltb_spec (byteVal c) 128); [lia|]. by rewrite orb_true_r.
Qed.

(** Every byte of a result is an allowed character or a byte above the
    ASCII range left over from a multi-byte sequence. *)
Lemma ReplaceInvalidChars_validOrHigh s r :
  ReplaceInvalidChars s = Some r → allBytes validOrHigh r = true.
Proof.
  unfold ReplaceInvalidChars. rewrite replaceLoop_rangeString. simpl.
  pose proof (rewriteFrom_validOrHigh s 0 eq_refl) as Hv.
  destruct (rewriteFrom 0 s) as [|c0 cur]; [done|]. simpl.
  destruct (isDigit _); intros [= <-]; done.
Qed.

(** ** The identity string *)

Lemma sortStrings_Permutation (a b : list string) :
  a ≡ₚ b → sortStrings a = sortStrings b.
Proof.
  intros Hab. unfold sortStrings.
  apply (Sorted_unique String.le).
  - apply Sorted_merge_sort, _.
  - apply Sorted_merge_sort, _.
  - by rewrite !merge_sort_Permutation.
Qed.

Lemma sampleID_Permutation name (labels : gmap string string) (ks1 ks2 : list string) :
  ks1 ≡ₚ ks2 → sampleID name labels ks1 = sampleID name labels ks2.
Proof.
  intros Hp. unfold sampleID. by rewrite (sortStrings_Permutation _ _ Hp).
Qed.

Lemma buildSample_Some rk s field value smp :
  buildSample rk s field value = Some smp →
  ∃ name labels,
    ReplaceInvalidChars (metricName s field) = Some name
    ∧ labelLoop (models.Tags s) ∅ = Some labels
    ∧ smp = {| ID := sampleID name labels (rk labels); Name := name;
               Labels := labels; Value := value;
               Timestamp := models.Time s |}.
Proof.
  unfold buildSample. intros H.
  destruct (ReplaceInvalidChars (metricName s field)) as [name|] eqn:Hn; [|done].
  destruct (labelLoop (models.Tags s) ∅) as [labels|] eqn:Hl; [|done].
  simpl in H. exists name, labels. by simplify_eq.
Qed.

(** C6: two samples with identical name and identical label set get the
    same ID, whatever the order of the tags they were built from and
    whatever the order in which the runtime ranges over the label map. *)
Theorem sample_ID_deterministic
    (rk1 rk2 : gmap string string → list string)
    (p1 p2 : models.Point) (f1 f2 : string) (v1 v2 : float64)
    (smp1 smp2 : influxDBSample) :
  (∀ m, rk1 m ≡ₚ elements (dom m)) →
  (∀ m, rk2 m ≡ₚ elements (dom m)) →
  buildSample rk1 p1 f1 v1 = Some smp1 →
  buildSample rk2 p2 f2 v2 = Some smp2 →
  Name smp1 = Name smp2 →
  Labels smp1 = Labels smp2 →
  ID smp1 = ID smp2.
Proof.
  intros Hrk1 Hrk2 H1 H2 Hname Hlabels.
  apply buildSample_Some in H1 as (n1 & l1 & _ & _ & ->).
  apply buildSample_Some in H2 as (n2 & l2 & _ & _ & ->).
  simpl in *. subst n2 l2.
  apply sampleID_Permutation. by rewrite Hrk1, Hrk2.
Qed.

Lemma sample_ID_deterministic_witness :
  ∃ smp1 smp2,
    buildSample keysAscending point_ab "value" float64_one = Some smp1
    ∧ buildSample keysDescending point_ba "value" float64_one = Some smp2
    ∧ ID smp1 = ID smp2.
Proof.
  eexists _, _. split; [vm_compute; reflexivity|]. split; [vm_compute; reflexivity|].
  eapply (sample_ID_deterministic keysAscending keysDescending point_ab point_ba
            "value" "value" float64_one float64_one).
  - done.
  - intros m. unfold keysDescending. by rewrite reverse_Permutation.
  - vm_compute; reflexivity.
  - vm_compute; reflexivity.
  - vm_compute; reflexivity.
  - vm_compute; reflexivity.
Defined.

(** ** The label set *)

Lemma labelLoop_app pre post (m : gmap string string) :
  labelLoop (pre ++ post) m = labelLoop pre m ≫= labelLoop post.
Proof.
  revert m. induction pre as [|t pre IH]; intros m; simpl; [done|].
  case_decide; [apply IH|].
  destruct (ReplaceInvalidChars (models.Key t)) as [k|]; simpl; [apply IH|done].
Qed.

Lemma labelLoop_cons_labeled t post k (m : gmap string string) :
  labeled t → ReplaceInvalidChars (models.Key t) = Some k →
  labelLoop (t :: post) m = labelLoop post (<[k := models.Value t]> m).
Proof. intros Ht Hk. simpl. rewrite decide_False by done. by rewrite Hk. Qed.

Lemma labelLoop_lookup_untouched post k (m m' : gmap string string) :
  Forall (λ t, labeled t → ReplaceInvalidChars (models.Key t) ≠ Some k) post →
  labelLoop post m = Some m' → m' !! k = m !! k.
Proof.
  revert m. induction post as [|t post IH]; intros m Hall H; simpl in H.
  { by simplify_eq. }
  apply Forall_cons in Hall as [Ht Hall].
  case_decide as Hkey; [by apply IH|].
  destruct (ReplaceInvalidChars (models.Key t)) as [k'|] eqn:Hk'; [|done].
  simpl in H. rewrite (IH _ Hall H).
  apply lookup_insert_ne. intros ->. by apply Ht.
Qed.

Lemma labelLoop_keeps_keys ts k (m m' : gmap string string) :
  labelLoop ts m = Some m' → is_Some (m !! k) → is_Some (m' !! k).
Proof.
  revert m. induction ts as [|t ts IH]; intros m H Hk; simpl in H.
  { by simplify_eq. }
  case_decide; [by eapply IH|].
  destruct (ReplaceInvalidChars (models.Key t)) as [k'|]; [|done].
  simpl in H. eapply IH; [done|].
  destruct (decide (k' = k)) as [->|]; [rewrite lookup_insert_eq; eauto|].
  by rewrite lookup_insert_ne.
Qed.

Lemma labelLoop_size ts (m m' : gmap string string) :
  labelLoop ts m = Some m' → size m' ≤ size m + length (filter labeled ts).
Proof.
  revert m. induction ts as [|t ts IH]; intros m H; simpl in H.
  { simplify_eq. simpl. lia. }
  rewrite filter_cons. unfold labeled at 1.
  destruct (decide (models.Key t = "__name__")) as [Hkey|Hkey].
  - rewrite decide_False by (by intros []). by apply IH.
  - rewrite decide_True by done.
    destruct (ReplaceInvalidChars (models.Key t)) as [k'|]; [|done].
    simpl in H. apply IH in H. rewrite map_size_insert in H.
    destruct (m !! k'); simpl in *; lia.
Qed.

(** C10: when two tags of a point sanitize to the same key (two distinct
    raw keys in particular), the label set has one entry under that key,
    holding the raw value of the tag that comes last among those sanitizing
    to it, and the sample has fewer labels than the point has tags other
    than the reserved one. *)
Theorem labels_collision_last_wins
    (pre mid post : list models.Tag) (t1 t2 : models.Tag) (k : string)
    (labels : gmap string string) :
  labeled t1 → labeled t2 →
  ReplaceInvalidChars (models.Key t1) = Some k →
  ReplaceInvalidChars (models.Key t2) = Some k →
  Forall (λ t, labeled t → ReplaceInvalidChars (models.Key t) ≠ Some k) post →
  labelLoop (pre ++ t1 :: mid ++ t2 :: post) ∅ = Some labels →
  labels !! k = Some (models.Value t2)
  ∧ size labels < length (filter labeled (pre ++ t1 :: mid ++ t2 :: post)).
Proof.
  intros Hl1 Hl2 Hk1 Hk2 Hpost H.
  rewrite labelLoop_app in H. apply bind_Some in H as (m0 & Hpre & H).
  rewrite (labelLoop_cons_labeled _ _ _ _ Hl1 Hk1), labelLoop_app in H.
  apply bind_Some in H as (m1 & Hmid & H).
  rewrite (labelLoop_cons_labeled _ _ _ _ Hl2 Hk2) in H.
  split.
  - rewrite (labelLoop_lookup_untouched _ _ _ _ Hpost H).
    apply lookup_insert_eq.
  - assert (is_Some (m1 !! k)) as Hin.
    { eapply labelLoop_keeps_keys; [done|]. rewrite lookup_insert_eq. eauto. }
    apply labelLoop_size in Hpre, Hmid, H.
    rewrite map_size_insert_Some in H by done.
    rewrite map_size_empty in Hpre.
    rewrite map_size_insert in Hmid.
    rewrite filter_app, filter_cons_True, length_app by done. simpl.
    rewrite filter_app, filter_cons_True, length_app by done. simpl.
    destruct (m0 !! k); simpl in *; lia.
Qed.

Lemma labels_collision_last_wins_witness :
  ∃ labels,
    labelLoop ([tag_host] ++ tag_a_dash_b :: [] ++ tag_a_dot_b :: [tag_host]) ∅
      = Some labels
    ∧ labels !! "a_b" = Some "second"
    ∧ size labels < 4.
Proof.
  eexists. split; [vm_compute; reflexivity|].
  eapply (labels_collision_last_wins [tag_host] [] [tag_host]
            tag_a_dash_b tag_a_dot_b "a_b").
  - done.
  - done.
  - vm_compute; reflexivity.
  - vm_compute; reflexivity.
  - repeat constructor. intros _. vm_compute. discriminate.
  - vm_compute; reflexivity.
Defined.

(** Tags whose raw key is the reserved one never reach the label set. *)
Lemma labelLoop_drops_reserved ts (m : gmap string string) :
  labelLoop ts m = labelLoop (filter labeled ts) m.
Proof.
  revert m. induction ts as [|t ts IH]; intros m; [done|].
  rewrite filter_cons. unfold labeled at 1. simpl.
  destruct (decide (models.Key t = "__name__")) as [Hkey|Hkey].
  - rewrite decide_False by (by intros []). apply IH.
  - rewrite decide_True by done. simpl. rewrite decide_False by done.
    destruct (ReplaceInvalidChars (models.Key t)); simpl; [apply IH|done].
Qed.

(** Every label comes from a tag with a non-reserved raw key that sanitizes
    to the label's key. *)
Lemma labelLoop_origin ts k v (m m' : gmap string string) :
  labelLoop ts m = Some m' → m' !! k = Some v →
  m !! k = Some v
  ∨ ∃ t, t ∈ ts ∧ labeled t ∧ ReplaceInvalidChars (models.Key t) = Some k
         ∧ models.Value t = v.
Proof.
  revert m. induction ts as [|t ts IH]; intros m H Hk; simpl in H.
  { simplify_eq. by left. }
  destruct (decide (models.Key t = "__name__")) as [Hkey|Hkey].
  - destruct (IH _ H Hk) as [?|(t' & ? & ?)]; [by left|].
    right. exists t'. split; [by apply list_elem_of_further|done].
  - destruct (ReplaceInvalidChars (models.Key t)) as [k'|] eqn:Hk'; [|done].
    simpl in H. destruct (IH _ H Hk) as [Hm|(t' & ? & ?)].
    + destruct (decide (k' = k)) as [->|Hne].
      * rewrite lookup_insert_eq in Hm. right. exists t.
        split; [apply list_elem_of_here|]. by simplify_eq.
      * rewrite lookup_insert_ne in Hm by done. by left.
    + right. exists t'. split; [by apply list_elem_of_further|done].
Qed.

(** C3: the guard compares the raw key with the reserved name before the
    key is sanitized, so the tag key [__name_-] passes the guard, is
    sanitized to the reserved name and becomes a label of the sample. *)
Theorem reserved_label_after_sanitizing :
  ∃ smp,
    buildSample keysAscending point_reserved "value" float64_one = Some smp
    ∧ Labels smp !! "__name__" = Some "x".
Proof. eexists. split; vm_compute; reflexivity. Qed.

(** ** When the label loop completes *)

(** The label loop completes unless a tag that takes part has an empty key. *)
Lemma labelLoop_is_Some ts (m : gmap string string) :
  is_Some (labelLoop ts m) ↔ Forall (λ t, labeled t → models.Key t ≠ "") ts.
Proof.
  revert m. induction ts as [|t ts IH]; intros m; simpl.
  { split; [constructor|eauto]. }
  rewrite Forall_cons. destruct (decide (models.Key t = "__name__")) as [Hk|Hk].
  - rewrite IH. unfold labeled at 1. split; [|by intros [_ ?]].
    intros Hts. split; [by intros []|done].
  - destruct (ReplaceInvalidChars (models.Key t)) as [k|] eqn:Hr; simpl.
    + rewrite IH. split; [|by intros [_ ?]]. intros Hts. split; [|done].
      intros _ He. apply ReplaceInvalidChars_None in He. congruence.
    + apply ReplaceInvalidChars_None in Hr. split; [by intros [? ?]|].
      intros [He _]. by destruct (He Hk).
Qed.

(** ** The identity string and label values *)

(** C5: label values are joined unescaped, so a value containing the
    separator can shift the boundary between two labels: the two samples
    below have the same name and the same label keys, different label
    values, and the same ID. *)
Theorem sample_ID_collision :
  ∃ smp1 smp2,
    buildSample keysAscending point_dots1 "value" float64_one = Some smp1
    ∧ buildSample keysAscending point_dots2 "value" float64_one = Some smp2
    ∧ Name smp1 = Name smp2
    ∧ dom (Labels smp1) = dom (Labels smp2)
    ∧ Labels smp1 !! "a" ≠ Labels smp2 !! "a"
    ∧ ID smp1 = "m.a.1.b.2.b.3"
    ∧ ID smp2 = "m.a.1.b.2.b.3".
Proof.
  eexists _, _. split; [vm_compute; reflexivity|]. split; [vm_compute; reflexivity|].
  repeat split; try (vm_compute; reflexivity).
  vm_compute. discriminate.
Qed.

Lemma dot_split a b x y :
  dotFree a = true → dotFree b = true →
  a +:+ "." +:+ x = b +:+ "." +:+ y → a = b ∧ x = y.
Proof.
  revert b. induction a as [|c a IH]; intros [|c' b] Ha Hb H.
  - by injection H.
  - rewrite app_String in H. injection H as <- _. done.
  - rewrite app_String in H. injection H as -> _. done.
  - rewrite !app_String in H. injection H as -> H.
    simpl in Ha, Hb. apply andb_prop in Ha as [_ Ha]. apply andb_prop in Hb as [_ Hb].
    destruct (IH b Ha Hb H) as [-> ->]. done.
Qed.

Lemma Join_cons2 e e' rest sep :
  Join (e :: e' :: rest) sep = e +:+ sep +:+ Join (e' :: rest) sep.
Proof. reflexivity. Qed.

Lemma labelParts_cons (l : gmap string string) k ks :
  (k ← k :: ks; [k; l !!! k]) = k :: (l !!! k) :: (k ← ks; [k; l !!! k]).
Proof. reflexivity. Qed.

Lemma Join_pairs_inj (l1 l2 : gmap string string) (ks : list string) :
  Forall (λ k, dotFree (l1 !!! k) = true ∧ dotFree (l2 !!! k) = true) ks →
  Join (k ← ks; [k; l1 !!! k]) "." = Join (k ← ks; [k; l2 !!! k]) "." →
  Forall (λ k, l1 !!! k = l2 !!! k) ks.
Proof.
  induction ks as [|k ks IH]; intros Hdf H; [constructor|].
  apply Forall_cons in Hdf as [[Hd1 Hd2] Hdf].
  rewrite !labelParts_cons, !Join_cons2 in H.
  apply (inj (String.app k)), (inj (String.app ".")) in H.
  destruct ks as [|k' ks].
  - simpl in H. by repeat constructor.
  - rewrite !labelParts_cons, !(Join_cons2 (_ !!! k)) in H.
    apply dot_split in H as [Hv H]; [|done..].
    constructor; [done|]. apply IH; [done|]. by rewrite !labelParts_cons.
Qed.

(** With the same name and the same label keys, and no separator inside a
    label value, equal IDs come from equal label sets only. *)
Lemma sampleID_inj name (l1 l2 : gmap string string) (ks1 ks2 : list string) :
  ks1 ≡ₚ elements (dom l1) → ks2 ≡ₚ elements (dom l2) →
  dom l1 = dom l2 →
  map_Forall (λ _ v, dotFree v = true) l1 →
  map_Forall (λ _ v, dotFree v = true) l2 →
  sampleID name l1 ks1 = sampleID name l2 ks2 → l1 = l2.
Proof.
  intros Hk1 Hk2 Hdom Hd1 Hd2 H. unfold sampleID in H.
  assert (sortStrings ks2 = sortStrings ks1) as Hs.
  { apply sortStrings_Permutation. by rewrite Hk1, Hk2, Hdom. }
  rewrite Hs in H.
  assert (∀ k, k ∈ sortStrings ks1 ↔ k ∈ dom l1) as Hin.
  { intros k. unfold sortStrings. rewrite merge_sort_Permutation, Hk1.
    apply elem_of_elements. }
  assert (Forall (λ k, l1 !!! k = l2 !!! k) (sortStrings ks1)) as Heq.
  { apply Join_pairs_inj.
    - apply Forall_forall. intros k Hk%Hin.
      pose proof Hk as Hk'. rewrite Hdom in Hk'.
      apply elem_of_dom in Hk as [v1 Hv1]. apply elem_of_dom in Hk' as [v2 Hv2].
      rewrite (lookup_total_correct _ _ _ Hv1), (lookup_total_correct _ _ _ Hv2).
      split; [by eapply Hd1|by eapply Hd2].
    - destruct (sortStrings ks1) as [|k ks]; [done|].
      rewrite !labelParts_cons, !Join_cons2 in H.
      apply (inj (String.app name)), (inj (String.app ".")) in H.
      by rewrite !labelParts_cons. }
  apply map_eq. intros k. destruct (decide (k ∈ dom l1)) as [Hk|Hk].
  - pose proof Hk as Hk'. rewrite Hdom in Hk'.
    apply elem_of_dom in Hk as [v1 Hv1]. apply elem_of_dom in Hk' as [v2 Hv2].
    rewrite Forall_forall in Heq.
    assert (k ∈ sortStrings ks1) as Hks by (apply Hin, elem_of_dom; eauto).
    specialize (Heq k Hks).
    rewrite (lookup_total_correct _ _ _ Hv1), (lookup_total_correct _ _ _ Hv2) in Heq.
    congruence.
  - pose proof Hk as Hk'. rewrite Hdom in Hk'.
    apply not_elem_of_dom in Hk, Hk'. congruence.
Qed.

(** ** The sanitizer on particular inputs *)

(** C1: the loop ranges over runes but replaces a single byte, so of a
    multi-byte character only the first byte becomes an underscore; the
    continuation byte 169 stays in the result. *)
Theorem ReplaceInvalidChars_multibyte_residue :
  ReplaceInvalidChars e_acute = Some (String "_" (String "169" ""))
  ∧ validChar (byteVal "169") = false.
Proof. split; vm_compute; reflexivity. Qed.

(** C2: on the empty string the loop does nothing and the digit test
    indexes position 0 of an empty string, which panics. *)
Theorem ReplaceInvalidChars_empty_panics :
  replaceLoop (rangeString "") "" = Some "" ∧ index "" 0 = None
  ∧ ReplaceInvalidChars "" = None.
Proof. repeat split. Qed.

(** C4: a second pass sees the left-over continuation byte as an ill-formed
    rune and replaces it, so the second result differs from the first. *)
Theorem ReplaceInvalidChars_not_idempotent :
  ReplaceInvalidChars e_acute = Some (String "_" (String "169" ""))
  ∧ ReplaceInvalidChars (String "_" (String "169" "")) = Some "__"
  ∧ "__" ≠ String "_" (String "169" "").
Proof. repeat split; try (vm_compute; reflexivity). discriminate. Qed.

(** ** Serialization errors *)

Section serialization.

Context (Sprintf : string → string).
Context {PromMetric DtoMetric : Type}.
Context (MustNewConstMetric :
  string → gmap string string → float64 → option PromMetric).
Context (NewMetricWithTimestamp : Z → PromMetric → PromMetric).
Context (Write : PromMetric → DtoMetric + string).
Context (Encode : clientModel.MetricFamily DtoMetric → string * option string).

(** A failure of [Write] is fatal: the message goes to the error stream
    and the process exits with code 1. *)
Lemma emitSample_Write_error sample metric err w :
  MustNewConstMetric (Name sample) (Labels sample) (Value sample) = Some metric →
  Write (NewMetricWithTimestamp (Timestamp sample) metric) = inr err →
  emitSample Sprintf MustNewConstMetric NewMetricWithTimestamp Write Encode
    sample w
  = Exited 1 {| stdout := stdout w; stderr := stderr w +:+ Sprintf err;
                logged := logged w |}.
Proof.
  intros Hm Hw. unfold emitSample, mbind, Proc_bind, orPanic.
  rewrite Hm, Hw. reflexivity.
Qed.

(** C9: the error returned by [Encode] is dropped: when [Write] succeeds
    and [Encode] fails, the sample's iteration completes normally, nothing
    reaches the error stream and the process does not exit. *)
Theorem emitSample_Encode_error_discarded sample metric dto out err w :
  MustNewConstMetric (Name sample) (Labels sample) (Value sample) = Some metric →
  Write (NewMetricWithTimestamp (Timestamp sample) metric) = inl dto →
  Encode (clientModel.Build_MetricFamily (Name sample) "InfluxDB Metric"
            clientModel.MetricType_UNTYPED [dto]) = (out, Some err) →
  emitSample Sprintf MustNewConstMetric NewMetricWithTimestamp Write Encode
    sample w
  = Done () {| stdout := stdout w +:+ out; stderr := stderr w;
               logged := logged w |}.
Proof.
  intros Hm Hw He. unfold emitSample, mbind, Proc_bind, orPanic.
  rewrite Hm, Hw. simpl. unfold writeStdout. by rewrite He.
Qed.

End serialization.

Lemma emitSample_Encode_error_discarded_witness :
  emitSample id constMetric withTimestamp inl EncodeClosed sample_cpu world0
  = Done () world0.
Proof.
  change world0 with {| stdout := stdout world0 +:+ ""; stderr := stderr world0;
                        logged := logged world0 |} at 2.
  eapply (emitSample_Encode_error_discarded id constMetric withTimestamp inl
            EncodeClosed sample_cpu).
  - reflexivity.
  - reflexivity.
  - reflexivity.
Defined.

(** ** The coercion of field values *)

Section binary_round_exact.

Local Open Scope Z_scope.

Lemma digits2_pos_size p : digits2_pos p = Pos.size p.
Proof. induction p; simpl; congruence. Qed.

Lemma Zpos_iter_xO m n : Zpos (Pos.iter xO m n) = Zpos m * 2 ^ Zpos n.
Proof.
  induction n using Pos.peano_ind.
  - simpl. lia.
  - rewrite Pos.iter_succ, Pos2Z.inj_xO, IHn, Pos2Z.inj_succ, Z.pow_succ_r by lia.
    ring.
Qed.

Lemma digits2_pos_iter_xO m n :
  digits2_pos (Pos.iter xO m n) = (digits2_pos m + n)%positive.
Proof.
  induction n using Pos.peano_ind.
  - simpl. lia.
  - rewrite Pos.iter_succ. simpl. rewrite IHn. lia.
Qed.

Lemma digits2_pos_le p n : 0 <= n → Zpos p < 2 ^ n → Zpos (digits2_pos p) <= n.
Proof.
  intros Hn Hp. rewrite digits2_pos_size.
  destruct (Z_le_gt_dec (Zpos (Pos.size p)) n) as [|Hgt]; [done|exfalso].
  pose proof (Pos.size_le p) as Hle.
  apply Pos2Z.pos_le_pos in Hle. rewrite Pos2Z.inj_pow in Hle.
  change (Zpos 2) with 2 in Hle.
  assert (2 ^ (n + 1) <= 2 ^ Zpos (Pos.size p)) as Hpow
    by (apply Z.pow_le_mono_r; lia).
  rewrite Z.pow_add_r, Z.pow_1_r in Hpow by lia. lia.
Qed.

Variables prec emax : Z.
Hypothesis Hprec : 0 < prec.
Hypothesis Hemax : prec <= emax.
Hypothesis Hemax2 : 2 <= emax.

Lemma fexp_small d : 1 <= d <= prec → fexp prec emax d = d - prec.
Proof. unfold fexp, emin. lia. Qed.

(** A mantissa of at most [prec] digits is shifted left to exactly [prec]
    digits, and the exponent lowered by as much. *)
Lemma shl_align_small mx :
  Zpos (digits2_pos mx) <= prec →
  ∃ mz,
    shl_align mx 0 (Zpos (digits2_pos mx) - prec)
      = (mz, Zpos (digits2_pos mx) - prec)
    ∧ Zpos mz = Zpos mx * 2 ^ (prec - Zpos (digits2_pos mx))
    ∧ Zpos (digits2_pos mz) = prec.
Proof.
  intros Hd. unfold shl_align.
  destruct (Zpos (digits2_pos mx) - prec - 0) as [|k|k] eqn:E; [|lia|].
  - exists mx. replace (Zpos (digits2_pos mx) - prec) with 0 by lia.
    replace (prec - Zpos (digits2_pos mx)) with 0 by lia.
    repeat split; lia.
  - exists (Pos.iter xO mx k). split; [reflexivity|].
    rewrite Zpos_iter_xO, digits2_pos_iter_xO.
    replace (prec - Zpos (digits2_pos mx)) with (Zpos k) by lia. split; lia.
Qed.

(** A mantissa of exactly [prec] digits is neither shifted nor rounded. *)
Lemma binary_round_aux_canonical sx mz ez :
  Zpos (digits2_pos mz) = prec → 1 - prec <= ez <= 0 →
  binary_round_aux prec emax sx (Zpos mz) ez loc_Exact = S754_finite sx mz ez.
Proof.
  intros Hd He.
  assert (fexp prec emax (Zdigits2 (Zpos mz) + ez) - ez = 0) as Hshift.
  { simpl Zdigits2. rewrite Hd. unfold fexp, emin. lia. }
  unfold binary_round_aux, shr_fexp. rewrite Hshift.
  cbn [shr shr_record_of_loc shr_m loc_of_shr_record round_nearest_even].
  rewrite Hshift. cbn [shr shr_m].
  destruct (Z.leb_spec ez (emax - prec)); [done|lia].
Qed.

Lemma binary_round_exact sx mx :
  Zpos (digits2_pos mx) <= prec →
  ∃ mz ez,
    binary_round prec emax sx mx 0 = S754_finite sx mz ez
    ∧ ez <= 0 ∧ Zpos mz = Zpos mx * 2 ^ (- ez).
Proof.
  intros Hd. destruct (shl_align_small mx Hd) as (mz & Hal & Hmz & Hdz).
  exists mz, (Zpos (digits2_pos mx) - prec).
  unfold binary_round. rewrite Z.add_0_r, fexp_small by lia. rewrite Hal.
  rewrite binary_round_aux_canonical by lia.
  split; [done|]. split; [lia|]. rewrite Hmz.
  by replace (- (Zpos (digits2_pos mx) - prec))
       with (prec - Zpos (digits2_pos mx)) by lia.
Qed.

End binary_round_exact.

Lemma SFisZ_finite_exact sx mx mz ez :
  (ez <= 0)%Z → (Zpos mz = Zpos mx * 2 ^ (- ez))%Z →
  SFisZ (S754_finite sx mz ez) (cond_Zopp sx (Zpos mx)) = true.
Proof.
  intros He Hmz. unfold SFisZ.
  destruct (Z.leb_spec 0 ez).
  - assert (ez = 0%Z) as -> by lia. apply Z.eqb_eq.
    change (- 0)%Z with 0%Z in Hmz.
    rewrite Z.pow_0_r, Z.mul_1_r in *. by rewrite Hmz.
  - apply Z.eqb_eq. unfold cond_Zopp.
    destruct sx; [rewrite Z.mul_opp_l; f_equal|]; done.
Qed.

Lemma float64_of_int64_below (sx : bool) (p : positive) :
  (Zpos p < 2 ^ 53)%Z →
  SFisZ (binary_round 53 1024 sx p 0) (cond_Zopp sx (Zpos p)) = true.
Proof.
  intros Hp.
  assert (Zpos (digits2_pos p) <= 53)%Z as Hd
    by (apply digits2_pos_le; [lia|done]).
  edestruct (binary_round_exact 53 1024) as (mz & ez & Hr & He & Hmz);
    [..|exact Hd|]; [lia..|].
  rewrite Hr. by apply SFisZ_finite_exact.
Qed.

(** Integers of magnitude up to [2^53] convert exactly. *)
Lemma float64_of_int64_exact (i : Z) :
  (Z.abs i <= 2 ^ 53)%Z → SFisZ (float64_of_int64 i) i = true.
Proof.
  intros Hi. destruct i as [|p|p]; [done| |].
  - destruct (decide (Zpos p = 2 ^ 53)%Z) as [Heq|Hne].
    + assert (p = 9007199254740992%positive) as -> by lia.
      vm_compute. reflexivity.
    + apply (float64_of_int64_below false). lia.
  - destruct (decide (Zpos p = 2 ^ 53)%Z) as [Heq|Hne].
    + assert (p = 9007199254740992%positive) as -> by lia.
      vm_compute. reflexivity.
    + apply (float64_of_int64_below true). lia.
Qed.

(** C7, as stated, fails: the [int64] value [2^53 + 1] converts to the
    [float64] value [2^53]. *)
Lemma float64_of_int64_lossy :
  in_int64 (2 ^ 53 + 1)
  ∧ coerce (models.IntValue (2 ^ 53 + 1))
    = Some (S754_finite false 4503599627370496 1)
  ∧ SFisZ (S754_finite false 4503599627370496 1) (2 ^ 53) = true
  ∧ SFisZ (S754_finite false 4503599627370496 1) (2 ^ 53 + 1) = false.
Proof. unfold in_int64. repeat split; try lia; vm_compute; reflexivity. Qed.

Section rounding.

Local Open Scope Z_scope.

Lemma loc_Exact_iff rec R k :
  0 <= R → loc_of_shr_record rec = locOf R k →
  (shr_r rec || shr_s rec = false ↔ R = 0).
Proof.
  intros HR. destruct rec as [m [] []]; unfold locOf; simpl;
    destruct (Z.eqb_spec R 0); intros H; try discriminate; split; intros; try done; lia.
Qed.

Lemma locOf_step m (b : bool) (rs : bool) R k :
  0 <= k → 0 <= R < 2 ^ k → (rs = false ↔ R = 0) →
  loc_of_shr_record {| shr_m := m; shr_r := b; shr_s := rs |}
  = locOf ((if b then 2 ^ k else 0) + R) (k + 1).
Proof.
  intros Hk HR Hex.
  assert (0 < 2 ^ k) as Hpow by (apply Z.pow_pos_nonneg; lia).
  unfold locOf. rewrite Z.pow_add_r, Z.pow_1_r by lia.
  assert (rs = true → R ≠ 0) as Hne.
  { intros -> HR0. apply Hex in HR0. discriminate. }
  destruct b, rs; cbn [loc_of_shr_record];
    try (specialize (Hne eq_refl)); try (assert (R = 0) by (by apply Hex));
    repeat match goal with
    | |- context [Z.eqb ?x ?y] => destruct (Z.eqb_spec x y)
    | |- context [Z.compare ?x ?y] => destruct (Z.compare_spec x y)
    end; try lia; reflexivity.
Qed.

Lemma shr_1_shrInv M k rec :
  0 <= k → shrInv M k rec → shrInv M (k + 1) (shr_1 rec).
Proof.
  intros Hk [Hm (R & HM & HR & Hloc)].
  pose proof (loc_Exact_iff rec R k (proj1 HR) Hloc) as Hex.
  assert (0 < 2 ^ k) as Hpow by (apply Z.pow_pos_nonneg; lia).
  assert (2 ^ (k + 1) = 2 * 2 ^ k) as Hp1
    by (rewrite Z.pow_add_r, Z.pow_1_r by lia; lia).
  destruct rec as [m r s]. cbn [shr_m shr_r shr_s] in *.
  destruct m as [|[p|p|]|p]; try lia; cbn [shr_1].
  - split; [done|]. exists (0 + R).
    split; [cbn [shr_m]; lia|]. split; [lia|]. by apply (locOf_step _ false).
  - split; [cbn [shr_m]; lia|]. exists (2 ^ k + R).
    split; [cbn [shr_m]; lia|]. split; [lia|]. by apply (locOf_step _ true).
  - split; [cbn [shr_m]; lia|]. exists (0 + R).
    split; [cbn [shr_m]; lia|]. split; [lia|]. by apply (locOf_step _ false).
  - split; [done|]. exists (2 ^ k + R).
    split; [cbn [shr_m]; lia|]. split; [lia|]. by apply (locOf_step _ true).
Qed.

Lemma iter_pos_shrInv M p : ∀ k rec,
  0 <= k → shrInv M k rec → shrInv M (k + Zpos p) (SpecFloat.iter_pos shr_1 p rec).
Proof.
  induction p as [p IH|p IH|]; intros k rec Hk Hinv; simpl.
  - replace (k + Zpos p~1) with (k + 1 + Zpos p + Zpos p) by lia.
    apply IH; [lia|]. apply IH; [lia|]. by apply shr_1_shrInv.
  - replace (k + Zpos p~0) with (k + Zpos p + Zpos p) by lia.
    apply IH; [lia|]. by apply IH.
  - by apply shr_1_shrInv.
Qed.

Lemma digits2_pos_bounds p :
  2 ^ (Zpos (digits2_pos p) - 1) <= Zpos p < 2 ^ Zpos (digits2_pos p).
Proof.
  rewrite digits2_pos_size.
  pose proof (Pos.size_le p) as Hle. pose proof (Pos.size_gt p) as Hgt.
  apply Pos2Z.pos_le_pos in Hle. apply Pos2Z.pos_lt_pos in Hgt.
  rewrite Pos2Z.inj_pow in Hle, Hgt. change (Zpos 2) with 2 in *.
  split; [|done].
  assert (2 ^ Zpos (Pos.size p) = 2 * 2 ^ (Zpos (Pos.size p) - 1)) as Hp.
  { rewrite <- Z.pow_succ_r by lia. f_equal. lia. }
  lia.
Qed.

Lemma digits2_pos_eq p n :
  2 ^ (n - 1) <= Zpos p < 2 ^ n → Zpos (digits2_pos p) = n.
Proof.
  intros [Hlo Hhi]. pose proof (digits2_pos_bounds p) as [Hlo' Hhi'].
  destruct (Z.lt_trichotomy (Zpos (digits2_pos p)) n) as [Hlt|[?|Hgt]]; [|done|].
  - assert (2 ^ Zpos (digits2_pos p) <= 2 ^ (n - 1)) by (apply Z.pow_le_mono_r; lia).
    lia.
  - assert (0 <= n).
    { destruct (Z_lt_le_dec n 0) as [Hneg|]; [|done].
      rewrite (Z.pow_neg_r 2 n) in Hhi by done. lia. }
    assert (2 ^ n <= 2 ^ (Zpos (digits2_pos p) - 1)) by (apply Z.pow_le_mono_r; lia).
    lia.
Qed.

Lemma shrInv_round M n rec :
  0 <= n → shrInv M n rec →
  shr_m rec = M / 2 ^ n
  ∧ round_nearest_even (shr_m rec) (loc_of_shr_record rec) = roundShift M n.
Proof.
  intros Hn [Hm (R & HM & HR & Hloc)].
  assert (0 < 2 ^ n) as Hpow by (apply Z.pow_pos_nonneg; lia).
  assert (shr_m rec = M / 2 ^ n) as Hq.
  { apply (Z.div_unique M (2 ^ n) _ R); [lia|]. lia. }
  assert (R = M mod 2 ^ n) as HRm.
  { apply (Z.mod_unique M (2 ^ n) (shr_m rec) R); [lia|]. lia. }
  split; [done|]. rewrite Hloc. unfold roundShift, locOf. rewrite <- Hq, <- HRm.
  destruct (Z.eqb_spec R 0) as [->|Hne].
  - cbn [round_nearest_even].
    match goal with |- context [Z.compare ?x ?y] =>
      destruct (Z.compare_spec x y) end; (done || lia).
  - cbn [round_nearest_even]. by destruct (2 * R ?= 2 ^ n).
Qed.

Lemma roundShift_bounds M n :
  0 <= n → 0 <= M →
  M / 2 ^ n <= roundShift M n <= M / 2 ^ n + 1.
Proof.
  intros Hn HM. unfold roundShift.
  destruct (2 * (M mod 2 ^ n) ?= 2 ^ n); [destruct (Z.even _)|..]; lia.
Qed.

Section binary_round_large.

Variables prec emax : Z.
Hypothesis Hprec : 1 < prec.
Hypothesis Hemax : prec <= emax.

Lemma shr_fexp_none m e :
  0 < m → Zdigits2 m = prec → 0 <= e →
  shr_fexp prec emax m e loc_Exact
  = ({| shr_m := m; shr_r := false; shr_s := false |}, e).
Proof.
  intros Hm Hd He. unfold shr_fexp. rewrite Hd.
  assert (fexp prec emax (prec + e) - e = 0) as -> by (unfold fexp, emin; lia).
  reflexivity.
Qed.

Lemma binary_round_large sx mx :
  let d := Zpos (digits2_pos mx) in
  prec < d → d < emax →
  ∃ mz ez,
    binary_round prec emax sx mx 0 = S754_finite sx mz ez
    ∧ 0 <= ez
    ∧ Zpos mz * 2 ^ ez = roundShift (Zpos mx) (d - prec) * 2 ^ (d - prec)
    ∧ bounded prec emax mz ez = true.
Proof.
  intros d Hd Hdmax.
  pose proof (digits2_pos_bounds mx) as [Hlo Hhi]. fold d in Hlo, Hhi.
  set (n := d - prec). assert (0 < n) as Hn by lia.
  assert (0 < 2 ^ n) as Hpn by (apply Z.pow_pos_nonneg; lia).
  assert (2 ^ d = 2 ^ prec * 2 ^ n) as Hsplit.
  { rewrite <- Z.pow_add_r by lia. f_equal. lia. }
  assert (2 ^ (d - 1) = 2 ^ (prec - 1) * 2 ^ n) as Hsplit'.
  { rewrite <- Z.pow_add_r by lia. f_equal. lia. }
  assert (2 ^ prec = 2 * 2 ^ (prec - 1)) as Hprec2.
  { rewrite <- Z.pow_succ_r by lia. f_equal. lia. }
  assert (0 < 2 ^ (prec - 1)) as Hpp by (apply Z.pow_pos_nonneg; lia).
  (* the first shift *)
  unfold binary_round. rewrite Z.add_0_r.
  assert (fexp prec emax d = n) as Hfexp by (unfold fexp, emin; lia).
  fold d. rewrite Hfexp. unfold shl_align.
  destruct (n - 0) as [|p0|p0] eqn:Hn0; [lia| |lia].
  unfold binary_round_aux, shr_fexp at 1. cbn [Zdigits2]. fold d.
  rewrite Z.add_0_r, Hfexp, Z.sub_0_r.
  destruct n as [|p|p] eqn:Hnp; [lia| |lia]. cbn [shr shr_record_of_loc].
  rewrite (Z.add_0_l (Zpos p)).
  assert (shrInv (Zpos mx) (0 + Zpos p)
            (SpecFloat.iter_pos shr_1 p {| shr_m := Zpos mx; shr_r := false; shr_s := false |}))
    as Hinv.
  { apply iter_pos_shrInv; [lia|]. split; [done|]. exists 0.
    rewrite Z.pow_0_r. split; [cbn [shr_m]; lia|]. split; [lia|done]. }
  rewrite Z.add_0_l in Hinv.
  destruct (shrInv_round _ (Zpos p) _ ltac:(lia) Hinv) as [Hq Hround].
  set (rec1 := SpecFloat.iter_pos shr_1 p _) in *. rewrite Hround.
  (* the rounded mantissa *)
  pose proof (roundShift_bounds (Zpos mx) (Zpos p) ltac:(lia) ltac:(lia)) as [Hr1 Hr2].
  assert (2 ^ (prec - 1) <= Zpos mx / 2 ^ Zpos p) as Hq1.
  { apply Z.div_le_lower_bound; lia. }
  assert (Zpos mx / 2 ^ Zpos p < 2 ^ prec) as Hq2.
  { apply Z.div_lt_upper_bound; lia. }
  set (mR := roundShift (Zpos mx) (Zpos p)) in *.
  destruct (Z_lt_le_dec mR (2 ^ prec)) as [Hlt|Hge].
  - (* no carry *)
    destruct mR as [|m|m] eqn:HmR; [lia| |lia].
    rewrite shr_fexp_none; [|lia|cbn [Zdigits2]; apply digits2_pos_eq; lia|lia].
    cbn [shr_m]. destruct (Z.leb_spec (Zpos p) (emax - prec)); [|lia].
    exists m, (Zpos p). split; [done|]. split; [lia|]. split; [done|].
    unfold bounded, canonical_mantissa.
    rewrite (digits2_pos_eq m prec) by lia.
    apply andb_true_intro. split; [apply Z.eqb_eq; unfold fexp, emin; lia|].
    by apply Z.leb_le.
  - (* the rounding carries into one more bit *)
    assert (mR = 2 ^ prec) as HmR by lia.
    destruct mR as [|m|m] eqn:HmR'; [lia| |lia].
    unfold shr_fexp. cbn [Zdigits2].
    rewrite (digits2_pos_eq m (prec + 1)).
    2:{ rewrite Z.add_simpl_r, HmR. split; [lia|]. rewrite Z.pow_add_r by lia. lia. }
    assert (fexp prec emax (prec + 1 + Zpos p) - Zpos p = 1) as ->
      by (unfold fexp, emin; lia).
    cbn [shr shr_record_of_loc SpecFloat.iter_pos].
    assert (shrInv (Zpos m) (0 + 1)
              (shr_1 {| shr_m := Zpos m; shr_r := false; shr_s := false |})) as Hinv2.
    { apply shr_1_shrInv; [lia|]. split; [done|]. exists 0.
      rewrite Z.pow_0_r. split; [cbn [shr_m]; lia|]. split; [lia|done]. }
    destruct Hinv2 as [Hm2 (R2 & HM2 & HR2 & _)].
    set (rec2 := shr_1 _) in *. rewrite Z.add_0_l, Z.pow_1_r in *.
    assert (shr_m rec2 = 2 ^ (prec - 1)) as Hm2' by lia.
    rewrite Hm2'. destruct (2 ^ (prec - 1)) as [|m'|m'] eqn:Hm'; [lia| |lia].
    destruct (Z.leb_spec (Zpos p + 1) (emax - prec)); [|lia].
    exists m', (Zpos p + 1). split; [done|]. split; [lia|]. split.
    + rewrite Z.pow_add_r, Z.pow_1_r by lia. lia.
    + unfold bounded, canonical_mantissa.
      rewrite (digits2_pos_eq m' prec) by lia.
      apply andb_true_intro. split; [apply Z.eqb_eq; unfold fexp, emin; lia|].
      by apply Z.leb_le.
Qed.

End binary_round_large.

Lemma roundShift_0 M : roundShift M 0 = M.
Proof.
  unfold roundShift. rewrite Z.pow_0_r, Z.div_1_r, Z.mod_1_r. reflexivity.
Qed.

Lemma valid_binary_small sx mx :
  Zpos (digits2_pos mx) <= 53 →
  ∃ mz ez,
    binary_round 53 1024 sx mx 0 = S754_finite sx mz ez
    ∧ ez <= 0 ∧ Zpos mz = Zpos mx * 2 ^ (- ez)
    ∧ bounded 53 1024 mz ez = true.
Proof.
  intros Hd.
  destruct (shl_align_small 53 mx Hd) as (mz & Hal & Hmz & Hdz).
  exists mz, (Zpos (digits2_pos mx) - 53).
  unfold binary_round. rewrite Z.add_0_r, (fexp_small 53 1024) by lia.
  rewrite Hal, (binary_round_aux_canonical 53 1024) by lia.
  split; [done|]. split; [lia|]. split.
  - rewrite Hmz. by replace (- (Zpos (digits2_pos mx) - 53))
                   with (53 - Zpos (digits2_pos mx)) by lia.
  - unfold bounded, canonical_mantissa. rewrite Hdz.
    apply andb_true_intro. split; [apply Z.eqb_eq; unfold fexp, emin; lia|].
    apply Z.leb_le. lia.
Qed.

Lemma SFisZ_finite_nonneg sx mz ez z :
  0 <= ez → Zpos mz * 2 ^ ez = z →
  SFisZ (S754_finite sx mz ez) (cond_Zopp sx z) = true.
Proof.
  intros He <-. unfold SFisZ. destruct (Z.leb_spec 0 ez); [|lia].
  apply Z.eqb_eq. unfold cond_Zopp. destruct sx; [|done].
  by rewrite Z.mul_opp_l.
Qed.

(** The conversion of a non-zero integer of at most 64 bits. *)
Lemma float64_of_int64_magnitude (sx : bool) (p : positive) :
  Zpos p < 2 ^ 64 →
  let n := Z.max 0 (Zpos (digits2_pos p) - 53) in
  valid_binary 53 1024 (binary_round 53 1024 sx p 0) = true
  ∧ SFisZ (binary_round 53 1024 sx p 0)
      (cond_Zopp sx (roundShift (Zpos p) n * 2 ^ n)) = true.
Proof.
  intros Hp n. assert (Zpos (digits2_pos p) <= 64) as Hd64
    by (apply digits2_pos_le; [lia|done]).
  destruct (Z_le_gt_dec (Zpos (digits2_pos p)) 53) as [Hd|Hd].
  - destruct (valid_binary_small sx p Hd) as (mz & ez & -> & He & Hmz & Hb).
    split; [done|]. subst n. rewrite Z.max_l by lia.
    rewrite roundShift_0, Z.pow_0_r, Z.mul_1_r. by apply SFisZ_finite_exact.
  - destruct (binary_round_large 53 1024 ltac:(lia) ltac:(lia) sx p)
      as (mz & ez & -> & He & Hmz & Hb); [lia..|].
    split; [done|]. subst n. rewrite Z.max_r by lia.
    by apply SFisZ_finite_nonneg.
Qed.

(** The conversion of every [int64] is a valid binary64 number whose value
    is the integer rounded to nearest, ties to even. *)
Lemma float64_of_int64_rounds (i : Z) :
  in_int64 i →
  valid_binary 53 1024 (float64_of_int64 i) = true
  ∧ SFisZ (float64_of_int64 i) (roundNearestEven53 i) = true.
Proof.
  intros [Hlo Hhi]. unfold float64_of_int64, roundNearestEven53.
  destruct i as [|p|p]; [done| |].
  - destruct (float64_of_int64_magnitude false p ltac:(lia)) as [Hv Hz].
    split; [done|]. cbn [binary_normalize Z.abs Z.sgn Zdigits2].
    rewrite Z.mul_1_l. exact Hz.
  - destruct (float64_of_int64_magnitude true p) as [Hv Hz].
    { pose proof (Pos2Z.opp_pos p). lia. }
    split; [done|]. cbn [binary_normalize Z.abs Z.sgn Zdigits2].
    cbn [cond_Zopp] in Hz. change (-1) with (- (1)).
    by rewrite Z.mul_opp_l, Z.mul_1_l.
Qed.

Lemma roundShift_nearest M n :
  0 <= n → 0 <= M →
  2 * Z.abs (roundShift M n * 2 ^ n - M) <= 2 ^ n
  ∧ (2 * Z.abs (roundShift M n * 2 ^ n - M) = 2 ^ n →
     Z.even (roundShift M n) = true).
Proof.
  intros Hn HM. assert (0 < 2 ^ n) as Hp by (apply Z.pow_pos_nonneg; lia).
  pose proof (Z.div_mod M (2 ^ n) ltac:(lia)) as Hdm.
  pose proof (Z.mod_pos_bound M (2 ^ n) Hp) as Hrem.
  unfold roundShift.
  set (q := M / 2 ^ n) in *. set (rem := M mod 2 ^ n) in *. set (P := 2 ^ n) in *.
  destruct (Z.compare_spec (2 * rem) P) as [Heq|Hlt|Hgt].
  - destruct (Z.even q) eqn:Hev.
    + split; [lia|done].
    + split; [lia|]. intros _.
      rewrite Z.add_1_r, Z.even_succ, <- Z.negb_even. by rewrite Hev.
  - split; lia.
  - split; lia.
Qed.

Lemma roundNearestEven53_exact i :
  Z.abs i <= 2 ^ 53 → roundNearestEven53 i = i.
Proof.
  intros Hi. destruct (Z.eq_dec (Z.abs i) (2 ^ 53)) as [Heq|Hne].
  - destruct i as [|p|p]; [done| |].
    + assert (p = 9007199254740992%positive) as -> by lia. vm_compute. reflexivity.
    + assert (p = 9007199254740992%positive) as -> by (simpl in Heq; lia).
      vm_compute. reflexivity.
  - unfold roundNearestEven53.
    assert (Zdigits2 (Z.abs i) <= 53) as Hd.
    { destruct i as [|p|p]; simpl in *; [lia| |];
        apply digits2_pos_le; lia. }
    rewrite Z.max_l by lia.
    rewrite roundShift_0, Z.pow_0_r, Z.mul_1_r, Z.mul_comm. apply Z.abs_sgn.
Qed.

Lemma roundShift_53_bits (p : positive) :
  let n := Z.max 0 (Zpos (digits2_pos p) - 53) in
  0 <= roundShift (Zpos p) n <= 2 ^ 53.
Proof.
  intros n. assert (0 <= n) as Hn by lia.
  assert (0 < 2 ^ n) as Hp by (apply Z.pow_pos_nonneg; lia).
  pose proof (roundShift_bounds (Zpos p) n Hn ltac:(lia)) as [Hr1 Hr2].
  assert (Zpos p / 2 ^ n < 2 ^ 53) as Hq.
  { apply Z.div_lt_upper_bound; [lia|].
    pose proof (digits2_pos_bounds p) as [_ Hhi].
    assert (2 ^ Zpos (digits2_pos p) <= 2 ^ (n + 53)) as Hle
      by (apply Z.pow_le_mono_r; lia).
    rewrite Z.pow_add_r in Hle by lia. lia. }
  assert (0 <= Zpos p / 2 ^ n) as Hq0 by (apply Z.div_pos; lia).
  lia.
Qed.

Lemma roundNearestEven53_nearest i :
  isNearestEven53 i (roundNearestEven53 i).
Proof.
  unfold isNearestEven53, roundNearestEven53.
  cbv zeta. destruct i as [|p|p]; cbn [Z.abs Z.sgn Zdigits2].
  - exists 0. repeat split; done.
  - set (n := Z.max 0 (Zpos (digits2_pos p) - 53)).
    destruct (roundShift_nearest (Zpos p) n ltac:(lia) ltac:(lia)) as [Hnear Htie].
    pose proof (roundShift_53_bits p) as Hb. cbv zeta in Hb. fold n in Hb.
    exists (roundShift (Zpos p) n). rewrite Z.mul_1_l.
    split; [done|]. split; [lia|]. done.
  - set (n := Z.max 0 (Zpos (digits2_pos p) - 53)).
    destruct (roundShift_nearest (Zpos p) n ltac:(lia) ltac:(lia)) as [Hnear Htie].
    pose proof (roundShift_53_bits p) as Hb. cbv zeta in Hb. fold n in Hb.
    exists (- roundShift (Zpos p) n).
    change (-1) with (- (1)). rewrite Z.mul_opp_l, Z.mul_1_l.
    split; [by rewrite Z.mul_opp_l|]. split; [lia|].
    change (Z.abs (Zneg p)) with (Zpos p). cbn [Zdigits2]. fold n.
    split; [lia|]. intros Ht. rewrite Z.even_opp. apply Htie. lia.
Qed.

End rounding.

(** C7, amended: a [float64] passes through; an [int64] is converted to
    the nearest [float64], ties to even: the result is a valid binary64
    number whose value is the integer rounded to 53 significant bits, which
    is the integer itself whenever its magnitude is at most [2^53], and
    zero becomes positive zero; a [bool] becomes 1.0 or positive zero; a
    value of any other type yields no sample, no output and no error. *)
Theorem field_value_coercion
    (f : float64) (i u : Z) (str : string) (b : bool) :
  in_int64 i →
  coerce (models.FloatValue f) = Some f
  ∧ (coerce (models.IntValue i) = Some (float64_of_int64 i)
     ∧ valid_binary 53 1024 (float64_of_int64 i) = true
     ∧ SFisZ (float64_of_int64 i) (roundNearestEven53 i) = true
     ∧ isNearestEven53 i (roundNearestEven53 i)
     ∧ ((Z.abs i <= 2 ^ 53)%Z → roundNearestEven53 i = i)
     ∧ (i = 0%Z → float64_of_int64 i = S754_zero false))
  ∧ coerce (models.BoolValue b)
    = Some (if b then S754_finite false 4503599627370496 (-52)
            else S754_zero false)
  ∧ coerce (models.UintValue u) = None
  ∧ coerce (models.StringValue str) = None
  ∧ (∀ (v : models.FieldValue) rk fmt (PromMetric DtoMetric : Type)
       (mk : string → gmap string string → float64 → option PromMetric)
       (ts : Z → PromMetric → PromMetric) (wr : PromMetric → DtoMetric + string)
       (enc : clientModel.MetricFamily DtoMetric → string * option string)
       (s : models.Point) (field : string) (w : World),
       coerce v = None → fieldBody rk fmt mk ts wr enc s field v w = Done () w).
Proof.
  intros Hi. split; [done|]. split.
  { destruct (float64_of_int64_rounds i Hi) as [Hvalid Hvalue].
    split; [done|]. split; [done|]. split; [done|].
    split; [apply roundNearestEven53_nearest|].
    split; [apply roundNearestEven53_exact|]. by intros ->. }
  split; [by destruct b|].
  split; [done|]. split; [done|].
  intros v rk fmt PM DM mk ts wr enc s field w Hv.
  unfold fieldBody. by rewrite Hv.
Qed.

Lemma field_value_coercion_witness :
  in_int64 (2 ^ 53 + 3)
  ∧ roundNearestEven53 (2 ^ 53 + 3) = (2 ^ 53 + 4)%Z
  ∧ SFisZ (float64_of_int64 (2 ^ 53 + 3)) (roundNearestEven53 (2 ^ 53 + 3)) = true.
Proof.
  split; [unfold in_int64; lia|]. split; [vm_compute; reflexivity|].
  apply (field_value_coercion float64_one (2 ^ 53 + 3) 7 "text" true).
  unfold in_int64. lia.
Defined.

(** ** Runs of the whole loop on small batches *)

(** Two numeric fields give two records; a point whose fields cannot be
    read is reported on the error stream and skipped; a string field is
    skipped silently. *)
Example parsePointsToSample_batch :
  parsePointsToSample keysAscending id loggerPlain constMetric withTimestamp inl
    EncodeName [point_cpu; point_broken; point_9cpu] world0
  = Done () {| stdout := "cpu_usage;cpu_idle;_9cpu;";
               stderr := loggerPlain [("level", "error");
                                      ("msg", "error getting fields from point");
                                      ("err", "unable to unmarshal field")];
               logged := ["error getting fields from point: unable to unmarshal field"] |}.
Proof. vm_compute. reflexivity. Qed.

(** A failing [Write] stops the run at the first sample. *)
Example parsePointsToSample_Write_fails :
  parsePointsToSample keysAscending id loggerPlain constMetric withTimestamp
    (λ _, inr "write failed") EncodeName [point_cpu; point_9cpu] world0
  = Exited 1 {| stdout := ""; stderr := "write failed"; logged := [] |}.
Proof. vm_compute. reflexivity. Qed.

(** A failing [Encode] does not: every sample is processed and the exit
    status stays that of a successful run. *)
Example parsePointsToSample_Encode_fails :
  parsePointsToSample keysAscending id loggerPlain constMetric withTimestamp inl
    EncodeClosed [point_cpu; point_9cpu] world0
  = Done () world0.
Proof. vm_compute. reflexivity. Qed.

(** * Further properties of the code *)

(** ** More on the sanitizer *)

Lemma isDigit_validChar b : isDigit b = true → validChar b = true.
Proof. unfold isDigit, validChar. intros ->. by rewrite !orb_true_r. Qed.

Lemma ReplaceInvalidChars_unfold s :
  ReplaceInvalidChars s
  = match rewriteFrom 0 s with
    | EmptyString => None
    | String c0 cur =>
      Some (if isDigit (byteVal c0) then "_" +:+ String c0 cur else String c0 cur)
    end.
Proof.
  unfold ReplaceInvalidChars. rewrite replaceLoop_rangeString. simpl.
  destruct (rewriteFrom 0 s) as [|c0 cur]; [done|]. simpl.
  by destruct (isDigit _).
Qed.

Lemma rewriteFrom_0_cons c t :
  rewriteFrom 0 (String c t)
  = String (sanitizeByte c) (rewriteFrom (pred (nextRune (String c t)).2) t).
Proof.
  simpl. destruct (nextRune (String c t)) as [r w] eqn:Hn. simpl. f_equal.
  unfold sanitizeByte. destruct (validChar (byteVal c)) eqn:Hc.
  - rewrite (nextRune_ASCII c t (validChar_isASCII _ Hc)) in Hn.
    injection Hn as <- <-. by rewrite Hc.
  - apply nextRune_spec in Hn as [Hv _].
    destruct (validChar r); [|done]. by rewrite Hv in Hc.
Qed.

Lemma isDigit_sanitizeByte c :
  isDigit (byteVal (sanitizeByte c)) = isDigit (byteVal c).
Proof.
  unfold sanitizeByte. destruct (validChar (byteVal c)) eqn:Hc; [done|].
  destruct (isDigit (byteVal c)) eqn:Hd; [|done].
  by rewrite (isDigit_validChar _ Hd) in Hc.
Qed.

(** X1: the function panics on the empty string and returns on every
    other input. *)
Theorem sanitizer_panics_iff_empty s :
  ReplaceInvalidChars s = None ↔ s = "".
Proof. apply ReplaceInvalidChars_None. Qed.

Lemma ReplaceInvalidChars_len s r :
  ReplaceInvalidChars s = Some r →
  len r = len s + (if startsWithDigit s then 1 else 0).
Proof.
  rewrite ReplaceInvalidChars_unfold.
  pose proof (rewriteFrom_length 0 s) as Hlen.
  destruct s as [|c t]; [done|]. rewrite rewriteFrom_0_cons in *.
  simpl startsWithDigit. rewrite isDigit_sanitizeByte.
  destruct (isDigit (byteVal c)); intros [= <-].
  - change ("_" +:+ ?x) with (String "_" x). simpl in *. lia.
  - simpl in *. lia.
Qed.

(** X2: the result is one byte longer than the input when the input starts
    with a digit, and exactly as long otherwise. *)
Theorem sanitizer_length s r :
  ReplaceInvalidChars s = Some r →
  len r = len s + (if startsWithDigit s then 1 else 0).
Proof. apply ReplaceInvalidChars_len. Qed.

Lemma sanitizer_length_witness :
  ReplaceInvalidChars "9cpu" = Some "_9cpu" ∧ len "_9cpu" = len "9cpu" + 1.
Proof.
  split; [vm_compute; reflexivity|].
  apply (sanitizer_length "9cpu" "_9cpu"). vm_compute; reflexivity.
Defined.

Lemma ReplaceInvalidChars_shape s r :
  ReplaceInvalidChars s = Some r →
  r ≠ "" ∧ startsWithDigit r = false ∧ allBytes validOrHigh r = true.
Proof.
  intros Hr. pose proof (ReplaceInvalidChars_validOrHigh s r Hr) as Hv.
  rewrite ReplaceInvalidChars_unfold in Hr.
  destruct (rewriteFrom 0 s) as [|c0 cur]; [done|].
  destruct (isDigit (byteVal c0)) eqn:Hd; injection Hr as <-; simpl; by rewrite ?Hd.
Qed.

(** X3: a result is never empty, never starts with a digit, and each of
    its bytes is an allowed character or a byte above the ASCII range. *)
Theorem sanitizer_result_shape s r :
  ReplaceInvalidChars s = Some r →
  r ≠ "" ∧ startsWithDigit r = false ∧ allBytes validOrHigh r = true.
Proof. apply ReplaceInvalidChars_shape. Qed.

Lemma sanitizer_result_shape_witness :
  startsWithDigit "_9cpu" = false.
Proof. apply (sanitizer_result_shape "9cpu" "_9cpu"). vm_compute; reflexivity. Defined.

Lemma rewriteFrom_0_valid s :
  allBytes validChar s = true ↔ rewriteFrom 0 s = s.
Proof.
  split; [apply rewriteFrom_valid|].
  induction s as [|c t IH]; [done|]. rewrite rewriteFrom_0_cons.
  intros [= Hc Ht]. unfold sanitizeByte in Hc.
  destruct (validChar (byteVal c)) eqn:Hv.
  - rewrite (nextRune_ASCII c t (validChar_isASCII _ Hv)) in Ht. simpl in *.
    by rewrite Hv, (IH Ht).
  - subst c. done.
Qed.

Lemma ReplaceInvalidChars_fix_iff s :
  ReplaceInvalidChars s = Some s ↔ isIdentifier s = true.
Proof.
  split.
  - intros Hs. destruct (ReplaceInvalidChars_shape s s Hs) as (Hne & Hd & _).
    pose proof (ReplaceInvalidChars_len s s Hs) as Hlen. rewrite Hd in Hlen.
    rewrite ReplaceInvalidChars_unfold in Hs.
    destruct s as [|c t]; [done|]. simpl in Hd. unfold isIdentifier. rewrite Hd.
    simpl negb. rewrite andb_true_l. apply rewriteFrom_0_valid.
    rewrite rewriteFrom_0_cons in *. rewrite isDigit_sanitizeByte, Hd in Hs.
    congruence.
  - destruct s as [|c t]; [done|]. unfold isIdentifier.
    intros [Hd%negb_true_iff Hv]%andb_prop.
    by apply ReplaceInvalidChars_fixpoint.
Qed.

(** X4: the strings the function leaves unchanged are exactly the
    identifiers: non-empty, made of allowed characters, not starting with
    a digit. *)
Theorem sanitizer_fixpoints s :
  ReplaceInvalidChars s = Some s ↔ isIdentifier s = true.
Proof. apply ReplaceInvalidChars_fix_iff. Qed.

(** X5: on input made of ASCII bytes the result is an identifier, and a
    second application returns it unchanged. *)
Theorem sanitizer_ASCII_identifier s r :
  allBytes isASCII s = true → ReplaceInvalidChars s = Some r →
  isIdentifier r = true ∧ ReplaceInvalidChars r = Some r.
Proof.
  intros Hs Hr. split; [|by apply (ReplaceInvalidChars_ASCII_idempotent s)].
  apply ReplaceInvalidChars_fix_iff. by apply (ReplaceInvalidChars_ASCII_idempotent s).
Qed.

Lemma sanitizer_ASCII_identifier_witness :
  isIdentifier "cpu_usage_x" = true
  ∧ ReplaceInvalidChars "cpu_usage_x" = Some "cpu_usage_x".
Proof.
  apply (sanitizer_ASCII_identifier "cpu-usage.x" "cpu_usage_x");
    vm_compute; reflexivity.
Defined.

Lemma rewriteFrom_get_ASCII s skip i c :
  contPrefix skip s = true → String.get i s = Some c →
  isASCII (byteVal c) = true →
  String.get i (rewriteFrom skip s) = Some (sanitizeByte c).
Proof.
  revert skip i. induction s as [|c0 t IH]; intros skip i Hskip Hi Hc; [done|].
  destruct skip as [|k].
  - rewrite rewriteFrom_0_cons. destruct i as [|i]; simpl in *; [by simplify_eq|].
    apply IH; [|done..].
    destruct (nextRune (String c0 t)) as [r w] eqn:Hn.
    by apply nextRune_spec in Hn as [_ ?].
  - simpl in Hskip. apply andb_prop in Hskip as [Hc0 Hk].
    destruct i as [|i]; simpl in *; [|by apply IH].
    simplify_eq. unfold isCont, locb in Hc0. unfold isASCII, runeSelf in Hc.
    apply andb_prop in Hc0 as [?%Z.leb_le _]. apply Z.ltb_lt in Hc. lia.
Qed.

Lemma ReplaceInvalidChars_get_ASCII s r i c :
  ReplaceInvalidChars s = Some r →
  String.get i s = Some c → isASCII (byteVal c) = true →
  String.get (i + (len r - len s)) r = Some (sanitizeByte c).
Proof.
  intros Hr Hi Hc. pose proof (ReplaceInvalidChars_len s r Hr) as Hlen.
  rewrite ReplaceInvalidChars_unfold in Hr.
  pose proof (rewriteFrom_get_ASCII s 0 i c eq_refl Hi Hc) as Hget.
  destruct (rewriteFrom 0 s) as [|c0 cur] eqn:Hrw; [done|].
  destruct s as [|c1 t]; [done|]. rewrite rewriteFrom_0_cons in Hrw.
  injection Hrw as <- <-. rewrite isDigit_sanitizeByte in Hr.
  simpl startsWithDigit in Hlen.
  destruct (isDigit (byteVal c1)); injection Hr as <-.
  - replace (i + _) with (S i) by lia. exact Hget.
  - replace (i + _) with i by lia. exact Hget.
Qed.

(** X6: every ASCII byte of the input, wherever it stands and whatever
    surrounds it, is kept when it is an allowed character and replaced by
    an underscore otherwise; it stays at its position, moved by one when
    the digit prefix is added. *)
Theorem sanitizer_ASCII_bytes s r i c :
  ReplaceInvalidChars s = Some r →
  String.get i s = Some c → isASCII (byteVal c) = true →
  String.get (i + (len r - len s)) r = Some (sanitizeByte c).
Proof. apply ReplaceInvalidChars_get_ASCII. Qed.

Lemma sanitizer_ASCII_bytes_witness :
  String.get (2 + (len (String "_" (String "169" "_b")) - len (e_acute +:+ ".b")))
    (String "_" (String "169" "_b")) = Some (sanitizeByte "."%char).
Proof.
  apply (sanitizer_ASCII_bytes (e_acute +:+ ".b") _ 2 "."%char);
    vm_compute; reflexivity.
Defined.

(** ** The metric name *)

Lemma rewriteFrom_0_ASCII s :
  allBytes isASCII s = true → rewriteFrom 0 s = mapBytes sanitizeByte s.
Proof.
  induction s as [|c t IH]; [done|]. simpl allBytes.
  intros [Hc Ht]%andb_prop. rewrite rewriteFrom_0_cons.
  rewrite (nextRune_ASCII c t Hc). simpl. by rewrite (IH Ht).
Qed.

Lemma ReplaceInvalidChars_ASCII_closed s r :
  allBytes isASCII s = true → ReplaceInvalidChars s = Some r →
  r = (if startsWithDigit s then "_" else "") +:+ mapBytes sanitizeByte s.
Proof.
  intros Hs. rewrite ReplaceInvalidChars_unfold, (rewriteFrom_0_ASCII s Hs).
  destruct s as [|c t]; [done|]. cbn [mapBytes startsWithDigit].
  rewrite isDigit_sanitizeByte. by destruct (isDigit (byteVal c)); intros [= <-].
Qed.

(** C8: the name of a sample is the sanitized measurement name when the
    field is called [value], and the sanitized concatenation of measurement
    name, underscore and field name otherwise.  Sanitized means: the name
    is the derived name with an underscore put in front when it starts with
    a digit; it never starts with a digit; each of its bytes is an allowed
    character or a byte above the ASCII range; every ASCII byte of the
    derived name is kept when it is an allowed character and replaced by an
    underscore otherwise; and when the derived name is all ASCII, the name
    is exactly the byte-wise replacement, with its prefix, and is an
    identifier.  A sample is produced exactly when neither the derived name
    nor a tag key that takes part in labeling is empty. *)
Theorem sample_name_derivation
    (rk : gmap string string → list string) (s : models.Point)
    (field : string) (v : models.FieldValue) (value : float64) :
  coerce v = Some value →
  (∀ smp, buildSample rk s field value = Some smp →
     (field = "value" →
        ReplaceInvalidChars (models.Name s) = Some (Name smp))
     ∧ (field ≠ "value" →
        ReplaceInvalidChars (models.Name s +:+ "_" +:+ field) = Some (Name smp))
     ∧ (∀ derived,
          (field = "value" → derived = models.Name s) →
          (field ≠ "value" → derived = models.Name s +:+ "_" +:+ field) →
          len (Name smp)
          = len derived + (if startsWithDigit derived then 1 else 0)
          ∧ startsWithDigit (Name smp) = false
          ∧ allBytes validOrHigh (Name smp) = true
          ∧ (∀ i c, String.get i derived = Some c →
                    isASCII (byteVal c) = true →
                    String.get (i + (if startsWithDigit derived then 1 else 0))
                               (Name smp)
                    = Some (sanitizeByte c))
          ∧ (allBytes isASCII derived = true →
             Name smp = (if startsWithDigit derived then "_" else "")
                        +:+ mapBytes sanitizeByte derived
             ∧ isIdentifier (Name smp) = true)))
  ∧ (is_Some (buildSample rk s field value) ↔
       (field = "value" → models.Name s ≠ "")
       ∧ Forall (λ t, labeled t → models.Key t ≠ "") (models.Tags s)).
Proof.
  intros _. split.
  - intros smp (name & labels & Hname & _ & ->)%buildSample_Some.
    unfold metricName in Hname. simpl Name.
    split; [by intros Hf; rewrite decide_True in Hname|].
    split; [by intros Hf; rewrite decide_False in Hname|].
    intros d Hd1 Hd2.
    assert (ReplaceInvalidChars d = Some name) as Hr.
    { destruct (decide (field = "value")) as [Hf|Hf];
        [by rewrite (Hd1 Hf)|by rewrite (Hd2 Hf)]. }
    clear Hname Hd1 Hd2.
    pose proof (ReplaceInvalidChars_len d name Hr) as Hlen.
    destruct (ReplaceInvalidChars_shape d name Hr) as (_ & Hdig & Hval).
    split; [done|]. split; [done|]. split; [done|]. split.
    + intros i c Hi Hc.
      rewrite <- (ReplaceInvalidChars_get_ASCII d name i c Hr Hi Hc).
      f_equal. lia.
    + intros Hascii. split; [by apply ReplaceInvalidChars_ASCII_closed|].
      by apply ReplaceInvalidChars_fix_iff,
               (ReplaceInvalidChars_ASCII_idempotent d).
  - rewrite <- labelLoop_is_Some with (m := ∅). unfold buildSample, metricName.
    destruct (decide (field = "value")) as [Hf|Hf].
    + destruct (ReplaceInvalidChars (models.Name s)) as [name|] eqn:Hn; simpl.
      * assert (models.Name s ≠ "") as Hne.
        { intros He%ReplaceInvalidChars_None. congruence. }
        destruct (labelLoop (models.Tags s) ∅); simpl; [by eauto|].
        split; [by intros [? ?]|]. by intros [_ [? ?]].
      * apply ReplaceInvalidChars_None in Hn. split; [by intros [? ?]|].
        intros [He _]. by destruct (He Hf).
    + destruct (ReplaceInvalidChars _) as [name|] eqn:Hn; simpl.
      * destruct (labelLoop (models.Tags s) ∅); simpl; [by eauto|].
        split; [by intros [? ?]|]. by intros [_ [? ?]].
      * apply ReplaceInvalidChars_None in Hn.
        destruct (models.Name s); discriminate.
Qed.

Lemma sample_name_derivation_witness :
  ∃ smp,
    buildSample keysAscending point_9cpu_load "usage.pct" float64_one = Some smp
    ∧ Name smp = "_9cpu_load_usage_pct"
    ∧ ReplaceInvalidChars ("9cpu-load" +:+ "_" +:+ "usage.pct") = Some (Name smp)
    ∧ Name smp = "_" +:+ mapBytes sanitizeByte "9cpu-load_usage.pct"
    ∧ startsWithDigit (Name smp) = false
    ∧ String.get (4 + 1) (Name smp) = Some (sanitizeByte "-"%char).
Proof.
  eexists. split; [vm_compute; reflexivity|]. split; [vm_compute; reflexivity|].
  destruct (sample_name_derivation keysAscending point_9cpu_load "usage.pct"
              (models.FloatValue float64_one) float64_one eq_refl)
    as [Hname _].
  destruct (Hname _ eq_refl) as (_ & Hfield & Hsan).
  split; [by apply Hfield|].
  destruct (Hsan "9cpu-load_usage.pct" ltac:(discriminate) ltac:(reflexivity))
    as (_ & Hdig & _ & Hget & Hascii).
  split; [by apply Hascii|]. split; [exact Hdig|].
  by apply (Hget 4 "-"%char).
Defined.

(** ** More on the label set *)

Lemma labelLoop_covers ts t (m m' : gmap string string) :
  labelLoop ts m = Some m' → t ∈ ts → labeled t →
  ∃ k, ReplaceInvalidChars (models.Key t) = Some k ∧ is_Some (m' !! k).
Proof.
  revert m. induction ts as [|t0 ts IH]; intros m H Ht Hl; [by inversion Ht|].
  simpl in H. apply elem_of_cons in Ht as [->|Ht].
  - rewrite decide_False in H by done.
    destruct (ReplaceInvalidChars (models.Key t0)) as [k|]; [|done].
    simpl in H. exists k. split; [done|].
    eapply labelLoop_keeps_keys; [done|]. rewrite lookup_insert_eq. eauto.
  - destruct (decide (models.Key t0 = "__name__")); [by eapply IH|].
    destruct (ReplaceInvalidChars (models.Key t0)) as [k|]; [|done].
    simpl in H. by eapply IH.
Qed.

(** X7: the keys of the label set are exactly the sanitized keys of the
    tags whose raw key is not the reserved one, and every label value is the
    raw value of such a tag. *)
Theorem labels_domain_and_values ts (labels : gmap string string) :
  labelLoop ts ∅ = Some labels →
  (∀ k, is_Some (labels !! k) ↔
        ∃ t, t ∈ ts ∧ labeled t ∧ ReplaceInvalidChars (models.Key t) = Some k)
  ∧ (∀ k v, labels !! k = Some v →
        ∃ t, t ∈ ts ∧ labeled t ∧ ReplaceInvalidChars (models.Key t) = Some k
             ∧ models.Value t = v).
Proof.
  intros H. split.
  - intros k. split.
    + intros [v Hv]. destruct (labelLoop_origin _ _ _ _ _ H Hv) as [He|(t & ? & ? & ? & _)].
      * by rewrite lookup_empty in He.
      * by exists t.
    + intros (t & Ht & Hl & Hk).
      destruct (labelLoop_covers _ _ _ _ H Ht Hl) as (k' & Hk' & Hin). congruence.
  - intros k v Hv. destruct (labelLoop_origin _ _ _ _ _ H Hv) as [He|?]; [|done].
    by rewrite lookup_empty in He.
Qed.

(** X8: the label loop panics exactly when a tag with a key other than the
    reserved one has the empty key. *)
Theorem labels_panic_iff_empty_key ts :
  labelLoop ts ∅ = None ↔ ∃ t, t ∈ ts ∧ models.Key t = "".
Proof.
  rewrite eq_None_not_Some, labelLoop_is_Some. split.
  - intros H. apply not_Forall_Exists in H; [|intros t; apply _].
    apply Exists_exists in H as (t & Ht & Hn). exists t. split; [done|].
    destruct (decide (models.Key t = "")) as [|Hne]; [done|].
    destruct Hn. by intros _.
  - intros (t & Ht & He) Hall. rewrite Forall_forall in Hall.
    apply (Hall t Ht); [|done]. unfold labeled. by rewrite He.
Qed.
Lemma labels_domain_and_values_witness :
  ∃ t, t ∈ [tag_host; tag_a_dash_b] ∧ labeled t
       ∧ ReplaceInvalidChars (models.Key t) = Some "a_b"
       ∧ models.Value t = "first".
Proof.
  eapply (labels_domain_and_values [tag_host; tag_a_dash_b]);
    vm_compute; reflexivity.
Defined.

(** X9: tags whose raw key is the reserved one have no effect at all: the
    loop gives the same result, panic included, on the tags without them;
    and the label set never has more entries than there are other tags. *)
Theorem labels_ignore_reserved_tags ts :
  labelLoop ts ∅ = labelLoop (filter labeled ts) ∅
  ∧ ∀ labels, labelLoop ts ∅ = Some labels →
      size labels ≤ length (filter labeled ts).
Proof.
  split; [apply labelLoop_drops_reserved|].
  intros labels H%labelLoop_size. by rewrite map_size_empty in H.
Qed.

Lemma labelKey_labeled t k :
  labelKey t = Some k ↔ labeled t ∧ ReplaceInvalidChars (models.Key t) = Some k.
Proof.
  unfold labelKey. destruct (decide (labeled t)); [|by split; [|intros []]].
  split; [done|by intros []].
Qed.

Lemma labelLoop_cons ts t (m : gmap string string) :
  labelLoop (t :: ts) m
  = if decide (labeled t)
    then k ← ReplaceInvalidChars (models.Key t);
         labelLoop ts (<[k := models.Value t]> m)
    else labelLoop ts m.
Proof.
  simpl. unfold labeled.
  destruct (decide (models.Key t = "__name__")).
  - by rewrite decide_False by (by intros []).
  - by rewrite decide_True.
Qed.

Lemma labelLoop_Permutation ts1 ts2 (m : gmap string string) :
  ts1 ≡ₚ ts2 → NoDup (omap labelKey ts1) → labelLoop ts1 m = labelLoop ts2 m.
Proof.
  intros Hp. revert m. induction Hp as [|t l l' Hp IH|x y l|l l' l'' Hp1 IH1 Hp2 IH2];
    intros m Hnd.
  - done.
  - rewrite !labelLoop_cons. simpl in Hnd.
    assert (NoDup (omap labelKey l)) as Hnd'.
    { destruct (labelKey t); [by apply NoDup_cons in Hnd as [_ ?]|done]. }
    case_decide; [|by apply IH].
    destruct (ReplaceInvalidChars (models.Key t)); simpl; [by apply IH|done].
  - rewrite (labelLoop_cons (x :: l) y), (labelLoop_cons (y :: l) x).
    simpl in Hnd. unfold labelKey in Hnd.
    destruct (decide (labeled x)) as [Hlx|Hlx], (decide (labeled y)) as [Hly|Hly];
      destruct (ReplaceInvalidChars (models.Key x)) as [kx|] eqn:Hx;
      destruct (ReplaceInvalidChars (models.Key y)) as [ky|] eqn:Hy;
      cbn [mbind option_bind];
      rewrite ?labelLoop_cons, ?(decide_True _ _ Hlx), ?(decide_True _ _ Hly),
        ?(decide_False _ _ Hlx), ?(decide_False _ _ Hly), ?Hx, ?Hy;
      cbn [mbind option_bind]; try done.
    f_equal. apply insert_insert_ne.
    apply NoDup_cons in Hnd as [Hnd _]. intros ->. apply Hnd. by left.
  - rewrite IH1 by done. apply IH2. by rewrite <- Hp1.
Qed.

(** X10: when no two tags sanitize to the same key, the label set does not
    depend on the order of the tags. *)
Theorem labels_order_independent ts1 ts2 :
  ts1 ≡ₚ ts2 → NoDup (omap labelKey ts1) →
  labelLoop ts1 ∅ = labelLoop ts2 ∅.
Proof. apply labelLoop_Permutation. Qed.

Lemma labels_order_independent_witness :
  labelLoop [tag_host; tag_a_dash_b] ∅ = labelLoop [tag_a_dash_b; tag_host] ∅.
Proof.
  apply (labels_order_independent [tag_host; tag_a_dash_b] [tag_a_dash_b; tag_host]).
  - apply perm_swap.
  - apply (bool_decide_unpack _). vm_compute. exact I.
Defined.

(** X11: every key of the label set is non-empty, does not start with a
    digit and consists of allowed characters and bytes above the ASCII
    range; when the tag keys are ASCII it is an identifier. *)
Theorem label_keys_shape ts (labels : gmap string string) k :
  labelLoop ts ∅ = Some labels → is_Some (labels !! k) →
  k ≠ "" ∧ startsWithDigit k = false ∧ allBytes validOrHigh k = true
  ∧ (Forall (λ t, allBytes isASCII (models.Key t) = true) ts →
     isIdentifier k = true).
Proof.
  intros H [v Hv].
  destruct (labelLoop_origin _ _ _ _ _ H Hv) as [He|(t & Ht & _ & Hk & _)].
  { by rewrite lookup_empty in He. }
  destruct (ReplaceInvalidChars_shape _ _ Hk) as (? & ? & ?).
  repeat split; try done.
  intros Hall. rewrite Forall_forall in Hall.
  apply ReplaceInvalidChars_fix_iff.
  by apply (ReplaceInvalidChars_ASCII_idempotent (models.Key t)); [apply Hall|].
Qed.

Lemma label_keys_shape_witness :
  startsWithDigit "a_b" = false.
Proof.
  eapply (label_keys_shape [tag_host; tag_a_dash_b] _ "a_b").
  - vm_compute; reflexivity.
  - vm_compute. eauto.
Defined.

(** ** More on the identity string *)

(** X12: for two label sets with the same keys in which no value contains
    the separator, equal IDs under the same name mean equal label sets,
    whatever the order in which the keys were collected. *)
Theorem sample_ID_injective_without_separator
    name (l1 l2 : gmap string string) (ks1 ks2 : list string) :
  ks1 ≡ₚ elements (dom l1) → ks2 ≡ₚ elements (dom l2) →
  dom l1 = dom l2 →
  map_Forall (λ _ v, dotFree v = true) l1 →
  map_Forall (λ _ v, dotFree v = true) l2 →
  sampleID name l1 ks1 = sampleID name l2 ks2 → l1 = l2.
Proof. apply sampleID_inj. Qed.

Lemma sample_ID_injective_without_separator_witness :
  ∃ l1 l2 : gmap string string,
    labelLoop (models.Tags point_ab) ∅ = Some l1
    ∧ labelLoop (models.Tags point_ba) ∅ = Some l2
    ∧ keysAscending l1 = ["dc"; "host"]
    ∧ keysDescending l2 = ["host"; "dc"]
    ∧ sampleID "cpu" l1 (keysAscending l1) = sampleID "cpu" l2 (keysDescending l2)
    ∧ l1 = l2.
Proof.
  eexists _, _. split; [reflexivity|]. split; [reflexivity|].
  split; [vm_compute; reflexivity|]. split; [vm_compute; reflexivity|].
  split; [vm_compute; reflexivity|].
  apply (sample_ID_injective_without_separator "cpu"
           (<["dc" := "x"]> (<["host" := "a"]> ∅))
           (<["host" := "a"]> (<["dc" := "x"]> ∅))
           ["dc"; "host"] ["host"; "dc"]).
  - apply (bool_decide_unpack _). vm_compute. exact I.
  - apply (bool_decide_unpack _). vm_compute. exact I.
  - apply (bool_decide_unpack _). vm_compute. exact I.
  - apply (bool_decide_unpack _). vm_compute. exact I.
  - apply (bool_decide_unpack _). vm_compute. exact I.
  - vm_compute. reflexivity.
Defined.

(** ** The run as a whole *)

Lemma app_empty_r_str s : s +:+ "" = s.
Proof. induction s as [|c s IH]; [done|]. by rewrite app_String, IH. Qed.

Section pipeline.

Context (rangeKeys : gmap string string → list string).
Context (Sprintf : string → string).
Context (logger : list (string * string) → string).
Context {PromMetric DtoMetric : Type}.
Context (MustNewConstMetric :
  string → gmap string string → float64 → option PromMetric).
Context (NewMetricWithTimestamp : Z → PromMetric → PromMetric).
Context (Write : PromMetric → DtoMetric + string).
Context (Encode : clientModel.MetricFamily DtoMetric → string * option string).
Context {File : Type}.
Context (Open : string → File + string).
Context (ReadAll : File → string + string).
Context (Now : Z).
Context (ParsePointsWithPrecision :
  string → Z → string → list models.Point + string).

Local Abbreviation run_emit :=
  (emitSample Sprintf MustNewConstMetric NewMetricWithTimestamp Write Encode).
Local Abbreviation run_field :=
  (fieldBody rangeKeys Sprintf MustNewConstMetric NewMetricWithTimestamp Write Encode).
Local Abbreviation run_fields :=
  (fieldLoop rangeKeys Sprintf MustNewConstMetric NewMetricWithTimestamp Write Encode).
Local Abbreviation run_points :=
  (parsePointsToSample rangeKeys Sprintf logger MustNewConstMetric
     NewMetricWithTimestamp Write Encode).
Local Abbreviation run_main :=
  (main rangeKeys Sprintf logger MustNewConstMetric NewMetricWithTimestamp Write
     Encode Open ReadAll Now ParsePointsWithPrecision).
Local Abbreviation fails_at :=
  (writeFailsAt rangeKeys MustNewConstMetric NewMetricWithTimestamp Write).

(** The three ways in which the emission of a sample ends. *)
Lemma emitSample_cases sample w :
  let made := MustNewConstMetric (Name sample) (Labels sample) (Value sample) in
  (made = None ∧ run_emit sample w = Panicked w)
  ∨ (∃ metric err,
       made = Some metric
       ∧ Write (NewMetricWithTimestamp (Timestamp sample) metric) = inr err
       ∧ run_emit sample w
         = Exited 1 {| stdout := stdout w; stderr := stderr w +:+ Sprintf err;
                       logged := logged w |})
  ∨ (∃ metric dto out,
       made = Some metric
       ∧ Write (NewMetricWithTimestamp (Timestamp sample) metric) = inl dto
       ∧ run_emit sample w
         = Done () {| stdout := stdout w +:+ out; stderr := stderr w;
                      logged := logged w |}).
Proof.
  intros made. unfold emitSample, mbind, Proc_bind, orPanic. subst made.
  destruct (MustNewConstMetric _ _ _) as [metric|]; [|by left].
  destruct (Write _) as [dto|err] eqn:Hw; right.
  - right. by eexists metric, dto, _.
  - left. by exists metric, err.
Qed.

Lemma fieldBody_Done s field v w w' :
  run_field s field v w = Done () w' →
  stderr w' = stderr w ∧ logged w' = logged w
  ∧ ∃ out, stdout w' = stdout w +:+ out.
Proof.
  unfold fieldBody. destruct (coerce v) as [value|].
  2:{ intros [= <-]. repeat split; [done..|]. exists "". by rewrite app_empty_r_str. }
  unfold mbind, Proc_bind, orPanic.
  destruct (buildSample _ _ _ _) as [sample|]; [|done].
  destruct (emitSample_cases sample w)
    as [[_ ->]|[(? & ? & _ & _ & ->)|(? & ? & out & _ & _ & ->)]]; [done..|].
  intros [= <-]. simpl. eauto.
Qed.

Lemma fieldBody_Exited s field v w code w' :
  run_field s field v w = Exited code w' →
  code = 1%Z
  ∧ ∃ err, fails_at s field v err
           ∧ w' = {| stdout := stdout w; stderr := stderr w +:+ Sprintf err;
                     logged := logged w |}.
Proof.
  unfold fieldBody. destruct (coerce v) as [value|] eqn:Hv; [|done].
  unfold mbind, Proc_bind, orPanic.
  destruct (buildSample _ _ _ _) as [sample|] eqn:Hs; [|done].
  destruct (emitSample_cases sample w)
    as [[_ ->]|[(metric & err & Hm & Hw & ->)|(? & ? & ? & _ & _ & ->)]]; [done| |done].
  intros [= <- <-]. split; [done|]. exists err. split; [|done].
  by exists value, sample, metric.
Qed.

Lemma fieldLoop_Done s fields w w' :
  run_fields s fields w = Done () w' →
  stderr w' = stderr w ∧ logged w' = logged w
  ∧ ∃ out, stdout w' = stdout w +:+ out.
Proof.
  revert w. induction fields as [|[field v] rest IH]; intros w H; simpl in H.
  { injection H as <-. repeat split; [done..|]. exists "". by rewrite app_empty_r_str. }
  unfold mbind, Proc_bind in H.
  destruct (run_field s field v w) as [[] w1|code w1|w1] eqn:Hb; [|done..].
  apply fieldBody_Done in Hb as (He1 & Hl1 & out1 & Ho1).
  apply IH in H as (He2 & Hl2 & out2 & Ho2).
  split; [congruence|]. split; [congruence|].
  exists (out1 +:+ out2). by rewrite Ho2, Ho1, app_assoc_str.
Qed.

Lemma fieldLoop_Exited s fields w code w' :
  run_fields s fields w = Exited code w' →
  code = 1%Z
  ∧ ∃ fs1 field v fs2 err,
      fields = fs1 ++ (field, v) :: fs2
      ∧ fails_at s field v err
      ∧ stderr w' = stderr w +:+ Sprintf err
      ∧ logged w' = logged w
      ∧ ∃ out, stdout w' = stdout w +:+ out.
Proof.
  revert w. induction fields as [|[field v] rest IH]; intros w H; simpl in H; [done|].
  unfold mbind, Proc_bind in H.
  destruct (run_field s field v w) as [[] w1|code1 w1|w1] eqn:Hb; [| |done].
  - apply fieldBody_Done in Hb as (He1 & Hl1 & out1 & Ho1).
    apply IH in H as (-> & fs1 & f & v' & fs2 & err & -> & Hf & He & Hl & out2 & Ho2).
    split; [done|]. exists ((field, v) :: fs1), f, v', fs2, err.
    split; [done|]. split; [done|]. split; [congruence|]. split; [congruence|].
    exists (out1 +:+ out2). by rewrite Ho2, Ho1, app_assoc_str.
  - injection H as -> ->.
    apply fieldBody_Exited in Hb as (-> & err & Hf & ->).
    split; [done|]. exists [], field, v, rest, err.
    split; [done|]. split; [done|]. simpl. split; [done|]. split; [done|].
    exists "". by rewrite app_empty_r_str.
Qed.

Lemma fieldsErrors_cons p rest :
  fieldsErrors (p :: rest)
  = match models.Fields p with
    | inr err =>
      ("error getting fields from point" +:+ ": " +:+ err) :: fieldsErrors rest
    | inl _ => fieldsErrors rest
    end.
Proof. unfold fieldsErrors. simpl. by destruct (models.Fields p). Qed.

Lemma run_points_Done points w w' :
  run_points points w = Done () w' →
  stderr w' = stderr w +:+ fieldsErrorLines logger points
  ∧ logged w' = logged w ++ fieldsErrors points
  ∧ ∃ out, stdout w' = stdout w +:+ out.
Proof.
  revert w. induction points as [|s rest IH]; intros w H; simpl in H.
  { injection H as <-. unfold fieldsErrors. simpl.
    rewrite app_empty_r_str, app_nil_r. repeat split; [done..|].
    exists "". by rewrite app_empty_r_str. }
  unfold mbind, Proc_bind in H. rewrite fieldsErrors_cons. simpl.
  destruct (models.Fields s) as [fields|err].
  - destruct (run_fields s fields w) as [[] w1|code w1|w1] eqn:Hf; [|done..].
    apply fieldLoop_Done in Hf as (He1 & Hl1 & out1 & Ho1).
    apply IH in H as (He2 & Hl2 & out2 & Ho2).
    split; [congruence|]. split; [congruence|].
    exists (out1 +:+ out2). by rewrite Ho2, Ho1, app_assoc_str.
  - unfold logError in H. apply IH in H as (He2 & Hl2 & out2 & Ho2). simpl in *.
    split; [by rewrite He2, app_assoc_str|]. split; [by rewrite Hl2, <- app_assoc|].
    by exists out2.
Qed.

Lemma run_points_Exited points w code w' :
  run_points points w = Exited code w' →
  code = 1%Z
  ∧ ∃ ps1 s ps2 fs1 field v fs2 err,
      points = ps1 ++ s :: ps2
      ∧ models.Fields s = inl (fs1 ++ (field, v) :: fs2)
      ∧ fails_at s field v err
      ∧ stderr w' = stderr w +:+ fieldsErrorLines logger ps1 +:+ Sprintf err
      ∧ logged w' = logged w ++ fieldsErrors ps1
      ∧ ∃ out, stdout w' = stdout w +:+ out.
Proof.
  revert w. induction points as [|s rest IH]; intros w H; simpl in H; [done|].
  unfold mbind, Proc_bind in H.
  destruct (models.Fields s) as [fields|err0] eqn:Hfs.
  - destruct (run_fields s fields w) as [[] w1|code1 w1|w1] eqn:Hf; [| |done].
    + apply fieldLoop_Done in Hf as (He1 & Hl1 & out1 & Ho1).
      apply IH in H
        as (-> & ps1 & s' & ps2 & fs1 & f & v & fs2 & err & -> & Hs' & Hfail
            & He & Hl & out2 & Ho2).
      split; [done|]. exists (s :: ps1), s', ps2, fs1, f, v, fs2, err.
      split; [done|]. split; [done|]. split; [done|].
      rewrite fieldsErrors_cons. simpl. rewrite Hfs.
      split; [congruence|]. split; [congruence|].
      exists (out1 +:+ out2). by rewrite Ho2, Ho1, app_assoc_str.
    + injection H as -> ->.
      apply fieldLoop_Exited in Hf
        as (-> & fs1 & f & v & fs2 & err & -> & Hfail & He & Hl & out & Ho).
      split; [done|]. exists [], s, rest, fs1, f, v, fs2, err.
      split; [done|]. split; [done|]. split; [done|].
      unfold fieldsErrors. simpl. rewrite app_nil_r.
      split; [done|]. split; [done|]. by exists out.
  - unfold logError in H.
    apply IH in H
      as (-> & ps1 & s' & ps2 & fs1 & f & v & fs2 & err & -> & Hs' & Hfail
          & He & Hl & out2 & Ho2).
    simpl in He, Hl, Ho2. split; [done|].
    exists (s :: ps1), s', ps2, fs1, f, v, fs2, err.
    split; [done|]. split; [done|]. split; [done|].
    rewrite fieldsErrors_cons. simpl. rewrite Hfs.
    split; [by rewrite He, !app_assoc_str|]. split; [by rewrite Hl, <- app_assoc|].
    by exists out2.
Qed.

(** X13: when the loop over the points exits, the exit code is 1 and the
    exit comes from one field of one point of the batch: the sample of that
    field was built, its metric constructed, and [Write] on it returned an
    error.  The error stream then holds the logger's lines for the
    unreadable points before that point followed by that error as rendered
    by [Fprintf], and what had been written to the output beforehand is
    still there. *)
Theorem parsePointsToSample_exit points w code w' :
  parsePointsToSample rangeKeys Sprintf logger MustNewConstMetric
    NewMetricWithTimestamp Write Encode points w = Exited code w' →
  code = 1%Z
  ∧ ∃ ps1 s ps2 fs1 field v fs2 err,
      points = ps1 ++ s :: ps2
      ∧ models.Fields s = inl (fs1 ++ (field, v) :: fs2)
      ∧ writeFailsAt rangeKeys MustNewConstMetric NewMetricWithTimestamp Write
          s field v err
      ∧ stderr w' = stderr w +:+ fieldsErrorLines logger ps1 +:+ Sprintf err
      ∧ logged w' = logged w ++ fieldsErrors ps1
      ∧ ∃ out, stdout w' = stdout w +:+ out.
Proof. apply run_points_Exited. Qed.

(** X14: when the loop over the points completes, the error stream has
    gained exactly the logger's lines for the points whose fields could
    not be read, one per such point in the order of the points, and the
    output has only grown. *)
Theorem parsePointsToSample_done points w w' :
  parsePointsToSample rangeKeys Sprintf logger MustNewConstMetric
    NewMetricWithTimestamp Write Encode points w = Done () w' →
  stderr w' = stderr w +:+ fieldsErrorLines logger points
  ∧ logged w' = logged w ++ fieldsErrors points
  ∧ ∃ out, stdout w' = stdout w +:+ out.
Proof. apply run_points_Done. Qed.

Lemma fieldBody_skip s field v w :
  coerce v = None → run_field s field v w = Done () w.
Proof. unfold fieldBody. by intros ->. Qed.

(** X15: fields that are neither float, integer nor boolean have no effect
    at all: a point gives the same run with and without them. *)
Theorem fieldLoop_numeric_only s fields w :
  fieldLoop rangeKeys Sprintf MustNewConstMetric NewMetricWithTimestamp Write
    Encode s fields w
  = fieldLoop rangeKeys Sprintf MustNewConstMetric NewMetricWithTimestamp Write
      Encode s (filter numeric fields) w.
Proof.
  revert w. induction fields as [|[field v] rest IH]; intros w; [done|].
  rewrite filter_cons. destruct (decide (numeric (field, v))) as [Hn|Hn].
  - simpl. unfold mbind, Proc_bind. destruct (run_field s field v w); [apply IH|done..].
  - simpl. unfold mbind, Proc_bind. rewrite fieldBody_skip; [apply IH|].
    unfold numeric in Hn. simpl in Hn. by destruct (coerce v); [destruct Hn|].
Qed.

(** X16: the loop over the points is sequential: a batch made of two
    batches runs the first, and runs the second from where the first
    completed; when the first exits or panics, the second is not run. *)
Theorem parsePointsToSample_app ps1 ps2 w :
  parsePointsToSample rangeKeys Sprintf logger MustNewConstMetric
    NewMetricWithTimestamp Write Encode (ps1 ++ ps2) w
  = match parsePointsToSample rangeKeys Sprintf logger MustNewConstMetric
            NewMetricWithTimestamp Write Encode ps1 w with
    | Done _ w1 =>
      parsePointsToSample rangeKeys Sprintf logger MustNewConstMetric
        NewMetricWithTimestamp Write Encode ps2 w1
    | o => o
    end.
Proof.
  revert w. induction ps1 as [|s rest IH]; intros w; [done|].
  simpl. unfold mbind, Proc_bind.
  destruct (models.Fields s) as [fields|err].
  - destruct (run_fields s fields w) as [[] w1|code w1|w1]; [apply IH|done..].
  - simpl. apply IH.
Qed.

Lemma buildSample_is_Some s field value :
  models.Name s ≠ "" → Forall (λ t, models.Key t ≠ "") (models.Tags s) →
  is_Some (buildSample rangeKeys s field value).
Proof.
  intros Hname Hkeys. unfold buildSample.
  destruct (ReplaceInvalidChars (metricName s field)) as [name|] eqn:Hn.
  - destruct (labelLoop (models.Tags s) ∅) as [labels|] eqn:Hl; simpl; [by eauto|].
    assert (is_Some (labelLoop (models.Tags s) ∅)) as [? ?]; [|congruence].
    apply labelLoop_is_Some. eapply Forall_impl; [done|]. by intros t Ht _.
  - apply ReplaceInvalidChars_None in Hn. unfold metricName in Hn.
    destruct (decide (field = "value")); [done|].
    destruct (models.Name s); [done|discriminate].
Qed.

(** X17: a batch runs to completion, without panic and without exit, when
    every point has a non-empty measurement name and no empty tag key and,
    for each sample the batch gives rise to, the metric constructor does not
    panic and [Write] does not fail; points whose fields cannot be read do
    not prevent it. *)
Theorem parsePointsToSample_completes points w :
  Forall (λ p,
    models.Name p ≠ ""
    ∧ Forall (λ t, models.Key t ≠ "") (models.Tags p)
    ∧ ∀ fields, models.Fields p = inl fields →
        Forall (emitsCleanly rangeKeys MustNewConstMetric NewMetricWithTimestamp
                  Write p) fields) points →
  ∃ w',
    parsePointsToSample rangeKeys Sprintf logger MustNewConstMetric
      NewMetricWithTimestamp Write Encode points w = Done () w'.
Proof.
  intros Hps.
  assert (∀ s fields w, models.Name s ≠ "" →
            Forall (λ t, models.Key t ≠ "") (models.Tags s) →
            Forall (emitsCleanly rangeKeys MustNewConstMetric
                      NewMetricWithTimestamp Write s) fields →
            ∃ w', run_fields s fields w = Done () w') as Hfields.
  { intros s fields w0 Hn Hk Hall. revert w0.
    induction Hall as [|[field v] rest Hfv _ IH]; intros w0.
    { by eexists. }
    simpl. unfold mbind at 1. unfold Proc_bind.
    assert (∃ w1, run_field s field v w0 = Done () w1) as [w1 ->]; [|by apply IH].
    unfold fieldBody. destruct (coerce v) as [value|] eqn:Hv; [|by eexists].
    destruct (buildSample_is_Some s field value Hn Hk) as [sample Hs].
    unfold mbind, Proc_bind, orPanic. rewrite Hs.
    destruct (Hfv value sample Hv Hs) as (metric & dto & Hm & Hw).
    destruct (emitSample_cases sample w0)
      as [[Hm' _]|[(? & ? & Hm' & Hw' & _)|(? & ? & ? & _ & _ & ->)]].
    - simpl in Hm'. congruence.
    - simpl in Hm'. congruence.
    - by eexists. }
  revert w. induction Hps as [|s rest (Hn & Hk & Hf) _ IH]; intros w; [by eexists|].
  simpl. unfold mbind, Proc_bind.
  destruct (models.Fields s) as [fields|err].
  - destruct (Hfields s fields w Hn Hk (Hf fields eq_refl)) as [w1 ->]. apply IH.
  - simpl. apply IH.
Qed.

Lemma main_unfold args w :
  run_main args w
  = match args !! 1 with
    | None => Panicked w
    | Some path =>
      match Open path with
      | inr err => (handleErr Sprintf err : Proc unit) w
      | inl file =>
        match ReadAll file with
        | inr err => (handleErr Sprintf err : Proc unit) w
        | inl buf =>
          match ParsePointsWithPrecision buf Now "ns" with
          | inr err => (handleErr Sprintf err : Proc unit) w
          | inl points => run_points points w
          end
        end
      end
    end.
Proof.
  unfold main, mbind at 1 2 3 4, Proc_bind, orPanic, mret, Proc_ret.
  destruct (args !! 1) as [path|]; [|reflexivity].
  destruct (Open path) as [file|]; [|reflexivity]. cbv beta iota.
  destruct (ReadAll file) as [buf|]; [|reflexivity]. cbv beta iota.
  destruct (ParsePointsWithPrecision buf Now "ns"); reflexivity.
Qed.

(** X18: a failure to open the file, to read it or to parse it ends the
    program with exit code 1 and the rendered error on the error stream,
    before anything is written to the output or logged. *)
Theorem main_fatal_errors args path err w :
  args !! 1 = Some path →
  Open path = inr err
  ∨ (∃ file, Open path = inl file ∧ ReadAll file = inr err)
  ∨ (∃ file buf, Open path = inl file ∧ ReadAll file = inl buf
                 ∧ ParsePointsWithPrecision buf Now "ns" = inr err) →
  main rangeKeys Sprintf logger MustNewConstMetric NewMetricWithTimestamp Write
    Encode Open ReadAll Now ParsePointsWithPrecision args w
  = Exited 1 {| stdout := stdout w; stderr := stderr w +:+ Sprintf err;
                logged := logged w |}.
Proof.
  intros Harg H. rewrite main_unfold, Harg.
  destruct H as [H1|[(file & H1 & H2)|(file & buf & H1 & H2 & H3)]];
    rewrite H1; [reflexivity|rewrite H2..]; [reflexivity|rewrite H3; reflexivity].
Qed.

(** X19: the program panics, leaving every stream untouched, when it is
    started without a file argument.  Whenever it exits, the exit code is 1
    and the exit has one of two causes: opening, reading or parsing the
    file failed, and then the error stream has gained exactly that error as
    rendered by [Fprintf] and nothing else was written; or the loop over
    the parsed points exited. *)
Theorem main_exit_status args w :
  (args !! 1 = None →
   main rangeKeys Sprintf logger MustNewConstMetric NewMetricWithTimestamp Write
     Encode Open ReadAll Now ParsePointsWithPrecision args w = Panicked w)
  ∧ (∀ code w',
       main rangeKeys Sprintf logger MustNewConstMetric NewMetricWithTimestamp
         Write Encode Open ReadAll Now ParsePointsWithPrecision args w
       = Exited code w' →
       code = 1%Z
       ∧ ∃ path, args !! 1 = Some path
         ∧ ((∃ err,
               (Open path = inr err
                ∨ (∃ file, Open path = inl file ∧ ReadAll file = inr err)
                ∨ (∃ file buf, Open path = inl file ∧ ReadAll file = inl buf
                     ∧ ParsePointsWithPrecision buf Now "ns" = inr err))
               ∧ w' = {| stdout := stdout w; stderr := stderr w +:+ Sprintf err;
                         logged := logged w |})
            ∨ (∃ file buf points,
                 Open path = inl file ∧ ReadAll file = inl buf
                 ∧ ParsePointsWithPrecision buf Now "ns" = inl points
                 ∧ parsePointsToSample rangeKeys Sprintf logger MustNewConstMetric
                     NewMetricWithTimestamp Write Encode points w
                   = Exited code w'))).
Proof.
  rewrite main_unfold. split; [by intros ->|].
  intros code w'. destruct (args !! 1) as [path|]; [|done].
  destruct (Open path) as [file|err] eqn:Ho.
  2:{ intros [= <- <-]. split; [done|]. exists path. split; [done|].
      left. exists err. split; [by left|done]. }
  destruct (ReadAll file) as [buf|err] eqn:Hr.
  2:{ intros [= <- <-]. split; [done|]. exists path. split; [done|].
      left. exists err. split; [right; left; by exists file|done]. }
  destruct (ParsePointsWithPrecision buf Now "ns") as [points|err] eqn:Hp.
  2:{ intros [= <- <-]. split; [done|]. exists path. split; [done|].
      left. exists err. split; [right; right; by exists file, buf|done]. }
  intros H. pose proof (run_points_Exited _ _ _ _ H) as [-> _].
  split; [done|]. exists path. split; [done|]. right. by exists file, buf, points.
Qed.

End pipeline.

(** ** The properties of the run on concrete batches *)

Lemma parsePointsToSample_exit_witness :
  (1 = 1)%Z
  ∧ ∃ ps1 s ps2 fs1 field v fs2 err,
      [point_broken; point_9cpu] = ps1 ++ s :: ps2
      ∧ models.Fields s = inl (fs1 ++ (field, v) :: fs2)
      ∧ writeFailsAt keysAscending constMetric withTimestamp WriteFails s field v err
      ∧ stderr {| stdout := "";
                  stderr := fieldsErrorLines loggerPlain [point_broken]
                            +:+ "write failed";
                  logged := fieldsErrors [point_broken] |}
        = stderr world0 +:+ fieldsErrorLines loggerPlain ps1 +:+ id err
      ∧ logged {| stdout := "";
                  stderr := fieldsErrorLines loggerPlain [point_broken]
                            +:+ "write failed";
                  logged := fieldsErrors [point_broken] |}
        = logged world0 ++ fieldsErrors ps1
      ∧ ∃ out, stdout {| stdout := "";
                         stderr := fieldsErrorLines loggerPlain [point_broken]
                                   +:+ "write failed";
                         logged := fieldsErrors [point_broken] |}
               = stdout world0 +:+ out.
Proof.
  apply (parsePointsToSample_exit keysAscending id loggerPlain constMetric
           withTimestamp WriteFails EncodeName [point_broken; point_9cpu] world0 1).
  vm_compute. reflexivity.
Defined.

Lemma parsePointsToSample_done_witness :
  stderr {| stdout := "cpu_usage;cpu_idle;_9cpu;";
            stderr := fieldsErrorLines loggerPlain [point_broken];
            logged := fieldsErrors [point_broken] |}
  = stderr world0
    +:+ fieldsErrorLines loggerPlain [point_cpu; point_broken; point_9cpu].
Proof.
  eapply (parsePointsToSample_done keysAscending id loggerPlain constMetric
            withTimestamp inl EncodeName [point_cpu; point_broken; point_9cpu]
            world0).
  vm_compute. reflexivity.
Defined.

Lemma parsePointsToSample_completes_witness :
  ∃ w', parsePointsToSample keysAscending id loggerPlain constMetricStrict
          withTimestamp inl EncodeName [point_cpu; point_broken; point_9cpu]
          world0 = Done () w'.
Proof.
  apply (parsePointsToSample_completes keysAscending id loggerPlain
           constMetricStrict withTimestamp inl EncodeName
           [point_cpu; point_broken; point_9cpu] world0).
  repeat constructor; try discriminate; try (intros ? [=]); subst;
    repeat constructor;
    intros value sample _ (name & labels & Hn & Hl & ->)%buildSample_Some;
    vm_compute in Hn, Hl; simplify_eq; eexists _, _; split; reflexivity.
Defined.

Lemma main_fatal_errors_witness :
  main keysAscending id loggerPlain constMetric withTimestamp inl EncodeName
    OpenFound ReadAllLine 0 ParseFails ["influxdb_exporter"; "points.txt"] world0
  = Exited 1 {| stdout := stdout world0;
                stderr := stderr world0 +:+ id "unable to parse: missing fields";
                logged := logged world0 |}.
Proof.
  apply (main_fatal_errors keysAscending id loggerPlain constMetric withTimestamp
           inl EncodeName OpenFound ReadAllLine 0 ParseFails
           ["influxdb_exporter"; "points.txt"] "points.txt").
  - reflexivity.
  - right. right. exists (), "cpu". repeat split; reflexivity.
Defined.

Lemma main_exit_status_witness :
  main keysAscending id loggerPlain constMetric withTimestamp WriteFails
    EncodeName OpenMissing ReadAllLine 0 ParseBatch ["influxdb_exporter"] world0
  = Panicked world0
  ∧ main keysAscending id loggerPlain constMetric withTimestamp WriteFails
      EncodeName OpenFound ReadAllLine 0 ParseBatch
      ["influxdb_exporter"; "points.txt"] world0
    = Exited 1 {| stdout := "";
                  stderr := fieldsErrorLines loggerPlain [point_broken]
                            +:+ "write failed";
                  logged := fieldsErrors [point_broken] |}
  ∧ ∃ path,
      ["influxdb_exporter"; "points.txt"] !! 1 = Some path
      ∧ ((∃ err,
            (OpenFound path = inr err
             ∨ (∃ file, OpenFound path = inl file ∧ ReadAllLine file = inr err)
             ∨ (∃ file buf, OpenFound path = inl file ∧ ReadAllLine file = inl buf
                            ∧ ParseBatch buf 0 "ns" = inr err))
            ∧ {| stdout := "";
                 stderr := fieldsErrorLines loggerPlain [point_broken]
                           +:+ "write failed";
                 logged := fieldsErrors [point_broken] |}
              = {| stdout := stdout world0;
                   stderr := stderr world0 +:+ id err;
                   logged := logged world0 |})
         ∨ (∃ file buf points,
              OpenFound path = inl file ∧ ReadAllLine file = inl buf
              ∧ ParseBatch buf 0 "ns" = inl points
              ∧ parsePointsToSample keysAscending id loggerPlain constMetric
                  withTimestamp WriteFails EncodeName points world0
                = Exited 1 {| stdout := "";
                              stderr := fieldsErrorLines loggerPlain [point_broken]
                                        +:+ "write failed";
                              logged := fieldsErrors [point_broken] |})).
Proof.
  split.
  - apply (main_exit_status keysAscending id loggerPlain constMetric
             withTimestamp WriteFails EncodeName OpenMissing ReadAllLine 0
             ParseBatch ["influxdb_exporter"] world0).
    reflexivity.
  - split; [vm_compute; reflexivity|].
    apply (main_exit_status keysAscending id loggerPlain constMetric
             withTimestamp WriteFails EncodeName OpenFound ReadAllLine 0
             ParseBatch ["influxdb_exporter"; "points.txt"] world0).
    vm_compute. reflexivity.
Defined.

Lemma labels_ignore_reserved_tags_witness :
  size ({[ "host" := "h1" ]} : gmap string string)
  ≤ length (filter labeled [models.Build_Tag "__name__" "up"; tag_host]).
Proof.
  apply (labels_ignore_reserved_tags [models.Build_Tag "__name__" "up"; tag_host]).
  vm_compute. reflexivity.
Defined.
